(** * Flat/dark-field normalisation of tomographic projections

    A shallow embedding of [tomopy/prep/normalize.py]: the numeric kernel
    [_normalize], the plain entry point [normalize] and the nearest-flat
    variant [normalize_nf], together with the properties of the segment
    arithmetic, of the kernel and of the chunked dispatch. *)

From Stdlib Require Import ZArith Bool Lia.
From Stdlib Require Import Floats.SpecFloat.
From stdpp Require Import base list.

(** ** float32 samples

    Every array handled by the module is first converted with
    [dtype.as_float32]; a sample is an IEEE 754 binary32 number, here a
    [spec_float] operated on with precision 24 and maximal exponent 128. *)

Module F32.

Definition prec : Z := 24.
Definition emax : Z := 128.
Definition t : Type := spec_float.

Definition zero : t := S754_zero false.
Definition nan : t := S754_nan.
Definition add : t -> t -> t := SFadd prec emax.
Definition sub : t -> t -> t := SFsub prec emax.
Definition div : t -> t -> t := SFdiv prec emax.
Definition eqb : t -> t -> bool := SFeqb.
Definition ltb : t -> t -> bool := SFltb.
Definition leb : t -> t -> bool := SFleb.

(** An integer converted to float32 (round to nearest even). *)
Definition of_Z (n : Z) : t := binary_normalize prec emax n 0 false.

(** A binary64 value stored into a float32 array. *)
Definition of_f64 (x : spec_float) : t :=
  match x with
  | S754_finite s m e => binary_round prec emax s m e
  | _ => x
  end.

(** The Python literal [1e-6]: the binary64 number nearest to 10^-6. *)
Definition f64_1e_6 : spec_float :=
  SFdiv 53 1024 (binary_normalize 53 1024 1 0 false)
                (binary_normalize 53 1024 1000000 0 false).

(** [1e-6] as it is stored by [denom[denom == 0] = 1e-6] (0x358637BD). *)
Definition eps : t := Eval vm_compute in of_f64 f64_1e_6.

Definition is_finite (x : t) : bool :=
  match x with
  | S754_zero _ | S754_finite _ _ _ => true
  | S754_infinity _ | S754_nan => false
  end.

Definition is_zero (x : t) : bool :=
  match x with S754_zero _ => true | _ => false end.

End F32.

(** ** Arrays *)

(** A 2-D array [(row, col)] and the frames of a 3-D array
    [(frame, row, col)]. *)
Abbreviation frame := (list (list F32.t)).
Abbreviation volume := (list (list (list F32.t))).

(** A calibration stack: a 3-D array together with the shape of its
    frames (the length of each row), which an array of shape [(0, R, C)]
    still has. *)
Record stack : Type := mkStack {
  frame_shape : list nat;
  frames : volume
}.

Definition shape (a : frame) : list nat := map length a.

Definition same_shape (a b : frame) : bool :=
  bool_decide (shape a = shape b).

(** [a[r, c]] *)
Definition px (a : frame) (r c : nat) : option F32.t :=
  match a !! r with
  | Some row => row !! c
  | None => None
  end.

(** [v[m, r, c]] *)
Definition vx (v : volume) (m r c : nat) : option F32.t :=
  match v !! m with
  | Some a => px a r c
  | None => None
  end.

(** ** Exceptions and results *)

Inductive exn : Type :=
  | IndexError
  | ValueError
  | ZeroDivisionError
  | UnboundObject.

Inductive result (A : Type) : Type :=
  | Ok (a : A)
  | Raise (e : exn).
Arguments Ok {A} a.
Arguments Raise {A} e.

Definition is_ok {A} (r : result A) : bool :=
  match r with Ok _ => true | Raise _ => false end.

(** ** The array runtime (numpy), on float32 arrays *)

Inductive statistic : Type := Mean | Median.

Module np.

(** A binary ufunc on two 2-D arrays of one shape.  For shapes that
    differ numpy raises unless it can broadcast them; broadcasting, which
    no caller relies on, is not modelled: the model raises. *)
Definition elementwise (op : F32.t -> F32.t -> F32.t) (a b : frame)
  : result frame :=
  if same_shape a b then Ok (zip_with (zip_with op) a b)
  else Raise ValueError.

Definition subtract : frame -> frame -> result frame := elementwise F32.sub.
Definition true_divide : frame -> frame -> result frame := elementwise F32.div.

(** [a[mask(a)] = v], as a value. *)
Definition masked_fill (mask : F32.t -> bool) (v : F32.t) (a : frame) : frame :=
  map (map (fun x => if mask x then v else x)) a.

Definition zeros_like (v : volume) : volume :=
  map (map (map (fun _ => F32.zero))) v.

(** The samples of one pixel along the frame axis. *)
Definition column (v : volume) (r c : nat) : list F32.t :=
  omap (fun a => px a r c) v.

(** The float32 mean of a sample list: the running sum over the count;
    for no sample at all, 0/0. *)
Definition mean1 (l : list F32.t) : F32.t :=
  match l with
  | [] => F32.nan
  | x :: l' => F32.div (foldl F32.add x l') (F32.of_Z (Z.of_nat (length l)))
  end.

Fixpoint insert_sorted (x : F32.t) (l : list F32.t) : list F32.t :=
  match l with
  | [] => [x]
  | y :: l' => if F32.leb x y then x :: l else y :: insert_sorted x l'
  end.

Definition sort (l : list F32.t) : list F32.t := foldr insert_sorted [] l.

Definition isnan (x : F32.t) : bool :=
  match x with S754_nan => true | _ => false end.

(** The median of a sample list: the mean of the middle sample, or of the
    two middle samples, of the sorted list; NaN as soon as one sample is
    NaN, and, as a mean of no sample, NaN for an empty list. *)
Definition median1 (l : list F32.t) : F32.t :=
  if existsb isnan l then F32.nan
  else
    let s := sort l in
    let n := length l in
    if Nat.even n
    then mean1 (take 2 (drop (n / 2 - 1) s))
    else mean1 (take 1 (drop (n / 2) s)).

Definition stat1 (st : statistic) : list F32.t -> F32.t :=
  match st with Mean => mean1 | Median => median1 end.

(** [stack.mean(axis=0)] and [np.median(stack, axis=0)]: the frame whose
    pixels are the statistic of that pixel's samples along the frame
    axis.  A stack with no frame reduces to a frame of NaN (numpy warns,
    it does not raise). *)
Definition reduced (st : statistic) (s : stack) : frame :=
  imap (fun r n => map (fun c => stat1 st (column (frames s) r c)) (seq 0 n))
       (frame_shape s).

End np.

(** ** Program state

    [SHARED_ARRAY] is the module global of [tomopy.util.mproc] the kernel
    works on.  The 2-D arrays the program creates are objects of a heap,
    addressed by their allocation index, so that in-place updates and
    aliasing are visible.  [trace] records, in program order, the
    reductions asked of the array runtime and the slice assignments
    [arr[tstart:tend] = _arr] into the output volume. *)

Definition loc : Type := nat.

Inductive event : Type :=
  | EvReduce (st : statistic) (input : stack)
  | EvWrite (tstart tend : Z).

Record state : Type := mkState {
  SHARED_ARRAY : volume;
  heap : list frame;
  trace : list event
}.

(** A computation: it returns or raises, and leaves a state either way. *)
Definition M (A : Type) : Type := state -> result A * state.

Definition ret {A} (a : A) : M A := fun s => (Ok a, s).

Definition raise {A} (e : exn) : M A := fun s => (Raise e, s).

Definition bind {A B} (c : M A) (k : A -> M B) : M B :=
  fun s =>
    match c s with
    | (Ok a, s') => k a s'
    | (Raise e, s') => (Raise e, s')
    end.

Notation "x <- c ;; k" := (bind c (fun x => k))
  (at level 100, c at next level, right associativity).
Notation "c ;;; k" := (bind c (fun _ => k))
  (at level 100, right associativity).

Definition lift {A} (r : result A) : M A := fun s => (r, s).

(** A new array object holding [a]. *)
Definition alloc (a : frame) : M loc :=
  fun s => (Ok (length (heap s)),
            mkState (SHARED_ARRAY s) (heap s ++ [a]) (trace s)).

Definition load (l : loc) : M frame :=
  fun s =>
    match heap s !! l with
    | Some a => (Ok a, s)
    | None => (Raise UnboundObject, s)
    end.

(** In-place update of the object at [l]. *)
Definition store (l : loc) (a : frame) : M unit :=
  fun s => (Ok tt, mkState (SHARED_ARRAY s) (<[l := a]> (heap s)) (trace s)).

(** [tomo[m, :, :]] on the shared array. *)
Definition shared_get (m : nat) : M frame :=
  fun s =>
    match SHARED_ARRAY s !! m with
    | Some a => (Ok a, s)
    | None => (Raise IndexError, s)
    end.

(** [tomo[m, :, :] = a] on the shared array. *)
Definition shared_set (m : nat) (a : frame) : M unit :=
  fun s => (Ok tt, mkState (<[m := a]> (SHARED_ARRAY s)) (heap s) (trace s)).

Definition set_shared_array (v : volume) : M unit :=
  fun s => (Ok tt, mkState v (heap s) (trace s)).

Definition get_shared_array : M volume :=
  fun s => (Ok (SHARED_ARRAY s), s).

Definition log (e : event) : M unit :=
  fun s => (Ok tt, mkState (SHARED_ARRAY s) (heap s) (trace s ++ [e])).

(** [range(a, b)] *)
Definition range (a b : nat) : list nat := seq a (b - a).

Fixpoint for_each {A} (l : list A) (body : A -> M unit) : M unit :=
  match l with
  | [] => ret tt
  | x :: l' => body x ;;; for_each l' body
  end.

(** ** The numeric kernel *)

(** One iteration of the loop of [_normalize]:
    [proj = np.true_divide(tomo[m, :, :] - dark, denom)], the clamp
    [proj[proj > cutoff] = cutoff] and [tomo[m, :, :] = proj]. *)
Definition _normalize_frame (dark denom : loc) (cutoff : option F32.t)
    (m : nat) : M unit :=
  tm <- shared_get m ;;
  d <- load dark ;;
  num <- lift (np.subtract tm d) ;;
  den <- load denom ;;
  q <- lift (np.true_divide num den) ;;
  proj <- alloc q ;;
  match cutoff with
  | Some c =>
      pv <- load proj ;;
      store proj (np.masked_fill (fun x => F32.ltb c x) c pv)
  | None => ret tt
  end ;;;
  pv <- load proj ;;
  shared_set m pv.

(** [denom = flat - dark], [denom[denom == 0] = 1e-6], then the loop over
    [range(istart, iend)]. *)
Definition _normalize (flat dark : loc) (cutoff : option F32.t)
    (istart iend : nat) : M unit :=
  f <- load flat ;;
  d <- load dark ;;
  fd <- lift (np.subtract f d) ;;
  denom <- alloc fd ;;
  dv <- load denom ;;
  store denom (np.masked_fill (fun x => F32.eqb x F32.zero) F32.eps dv) ;;;
  for_each (range istart iend) (_normalize_frame dark denom cutoff).

(** ** The chunk dispatcher *)

(** The worker pool: the number of workers used when [ncore] is not given,
    and the order in which the chunks happen to be run, which may be any
    rearrangement of the chunk list. *)
Record executor : Type := mkExecutor {
  cpu_count : nat;
  schedule : list (nat * nat) -> list (nat * nat);
  schedule_perm : forall l, Permutation (schedule l) l
}.

(** Chunks of length [c]; the last one may be shorter. *)
Definition chunks_of_size (n c : nat) : list (nat * nat) :=
  map (fun i => (Nat.min (i * c) n, Nat.min ((i + 1) * c) n))
      (seq 0 ((n + c - 1) / c)).

(** [n] frames spread over [k] chunks, the remainder going to the earliest
    chunks, one extra frame each. *)
Definition chunks_even (n k : nat) : list (nat * nat) :=
  map (fun i => (i * (n / k) + Nat.min i (n mod k),
                 (i + 1) * (n / k) + Nat.min (i + 1) (n mod k)))
      (seq 0 k).

(** Modelled from the spec: the partitioning policy of
    [tomopy.util.mproc.distribute_jobs], which is not among the sources
    (spec 4.3): a supplied chunk size gives chunks of that length, otherwise
    the frames are spread evenly over the workers.  Both parameters are
    positive integers (spec 6). *)
Definition chunk_ranges (E : executor) (n : nat) (ncore nchunk : option nat)
  : result (list (nat * nat)) :=
  match nchunk with
  | Some c => if Nat.eqb c 0 then Raise ValueError else Ok (chunks_of_size n c)
  | None =>
      let k := match ncore with Some k => k | None => cpu_count E end in
      if Nat.eqb k 0 then Raise ValueError else Ok (chunks_even n k)
  end.

(** Modelled from the spec: [tomopy.util.mproc.distribute_jobs], which is
    not among the sources (spec 4.3, 5): the array becomes the shared
    array, the kernel is run once per chunk, each worker writing only the
    frames of its chunk, in whatever order the pool runs them, and the
    shared array is returned; a failing chunk surfaces to the caller. *)
Definition distribute_jobs (E : executor) (arr : volume)
    (func : nat -> nat -> M unit) (ncore nchunk : option nat) : M volume :=
  set_shared_array arr ;;;
  chunks <- lift (chunk_ranges E (length arr) ncore nchunk) ;;
  for_each (schedule E chunks) (fun ch => func (fst ch) (snd ch)) ;;;
  get_shared_array.

(** ** Entry points *)

(** [stack.mean(axis=0)] and [np.median(stack, axis=0)]: a new 2-D array. *)
Definition reduce (st : statistic) (input : stack) : M loc :=
  log (EvReduce st input) ;;;
  alloc (np.reduced st input).

(** The arrays are float32 already: [dtype.as_float32] returns them as
    they are. *)
Definition normalize (E : executor) (tomo : volume) (flat dark : stack)
    (cutoff : option F32.t) (ncore nchunk : option nat) : M volume :=
  flat <- reduce Mean flat ;;
  dark <- reduce Mean dark ;;
  distribute_jobs E tomo (_normalize flat dark cutoff) ncore nchunk.

(** Python's [a // b] on integers. *)
Definition floordiv (a b : Z) : result Z :=
  if Z.eqb b 0 then Raise ZeroDivisionError else Ok (a / b)%Z.

(** A slice bound [i] on a sequence of length [n]: negative bounds count
    from the end, and every bound is clipped to the sequence. *)
Definition slice_index (n : nat) (i : Z) : nat :=
  if Z.ltb i 0 then Z.to_nat (Z.max 0 (i + Z.of_nat n))
  else Z.to_nat (Z.min i (Z.of_nat n)).

(** [l[start:stop]] *)
Definition slice {A} (l : list A) (start stop : Z) : list A :=
  let a := slice_index (length l) start in
  let b := slice_index (length l) stop in
  take (b - a) (drop a l).

(** [l[start:stop] = new] on the frame axis; the lengths have to agree. *)
Definition slice_assign {A} (l : list A) (start stop : Z) (new : list A)
  : result (list A) :=
  let a := slice_index (length l) start in
  let b := slice_index (length l) stop in
  if Nat.eqb (length new) (b - a)
  then Ok (take a l ++ new ++ drop (a + (b - a)) l)
  else Raise ValueError.

(** [s[start:stop]] on a stack: the frames keep their shape. *)
Definition stack_slice (s : stack) (start stop : Z) : stack :=
  mkStack (frame_shape s) (slice (frames s) start stop).

(** [l[i]] for a non-negative index. *)
Definition index {A} (l : list A) (i : nat) : result A :=
  match l !! i with
  | Some x => Ok x
  | None => Raise IndexError
  end.

(** [tstart = 0 if m == 0 else tend] *)
Definition seg_start (m : nat) (tend : Z) : Z :=
  if Nat.eqb m 0 then 0%Z else tend.

(** [tend = total_tomo if m >= num_flats-1 else (flat_loc[m+1]-loc-1)//2 + loc] *)
Definition seg_end (flat_loc : list Z) (num_flats total_tomo : Z)
    (m : nat) (loc : Z) : result Z :=
  if Z.leb (num_flats - 1) (Z.of_nat m) then Ok total_tomo
  else
    match index flat_loc (m + 1) with
    | Ok nxt => Ok ((nxt - loc - 1) / 2 + loc)%Z
    | Raise e => Raise e
    end.

(** [enumerate(l)] *)
Fixpoint enumerate_from {A} (m : nat) (l : list A) : list (nat * A) :=
  match l with
  | [] => []
  | x :: l' => (m, x) :: enumerate_from (S m) l'
  end.

Definition enumerate {A} (l : list A) : list (nat * A) := enumerate_from 0 l.

Section NormalizeNf.

Variable E : executor.
Variable tomo : volume.
Variable flats : stack.
Variable dark : loc.
Variable flat_loc : list Z.
Variable cutoff : option F32.t.
Variables ncore nchunk : option nat.
Variable num_per_flat : Z.

Local Abbreviation num_flats := (Z.of_nat (length flat_loc)).
Local Abbreviation total_tomo := (Z.of_nat (length tomo)).

(** The body of the loop over [enumerate(flat_loc)], on the loop-carried
    [tend] and [arr]. *)
Definition normalize_nf_body (m : nat) (loc : Z) (tend : Z) (arr : volume)
  : M (Z * volume) :=
  let fstart := (Z.of_nat m * num_per_flat)%Z in
  let fend := ((Z.of_nat m + 1) * num_per_flat)%Z in
  flat <- reduce Median (stack_slice flats fstart fend) ;;
  let tstart := seg_start m tend in
  tend <- lift (seg_end flat_loc num_flats total_tomo m loc) ;;
  _arr <- distribute_jobs E (slice tomo tstart tend)
            (_normalize flat dark cutoff) ncore nchunk ;;
  log (EvWrite tstart tend) ;;;
  arr <- lift (slice_assign arr tstart tend _arr) ;;
  ret (tend, arr).

Fixpoint normalize_nf_loop (items : list (nat * Z)) (tend : Z) (arr : volume)
  : M volume :=
  match items with
  | [] => ret arr
  | (m, loc) :: items' =>
      st <- normalize_nf_body m loc tend arr ;;
      normalize_nf_loop items' (fst st) (snd st)
  end.

End NormalizeNf.

Definition normalize_nf (E : executor) (tomo : volume) (flats dark : stack)
    (flat_loc : list Z) (cutoff : option F32.t) (ncore nchunk : option nat)
  : M volume :=
  let arr := np.zeros_like tomo in
  dark <- reduce Median dark ;;
  let num_flats := Z.of_nat (length flat_loc) in
  let total_flats := Z.of_nat (length (frames flats)) in
  num_per_flat <- lift (floordiv total_flats num_flats) ;;
  let tend := 0%Z in
  normalize_nf_loop E tomo flats dark flat_loc cutoff ncore nchunk num_per_flat
    (enumerate flat_loc) tend arr.

(** ** The index arithmetic of [normalize_nf], on its own *)

(** The segments [(tstart, tend)] the loop of [normalize_nf] goes through. *)
Fixpoint segments_from (flat_loc : list Z) (total_tomo : Z)
    (items : list (nat * Z)) (tend : Z) : list (Z * Z) :=
  match items with
  | [] => []
  | (m, loc) :: items' =>
      let tstart := seg_start m tend in
      match seg_end flat_loc (Z.of_nat (length flat_loc)) total_tomo m loc with
      | Ok tend' => (tstart, tend') :: segments_from flat_loc total_tomo items' tend'
      | Raise _ => []
      end
  end.

Definition segments (flat_loc : list Z) (total_tomo : Z) : list (Z * Z) :=
  segments_from flat_loc total_tomo (enumerate flat_loc) 0.

(** [num_per_flat = total_flats // num_flats] *)
Definition num_per_flat (flats : stack) (flat_loc : list Z) : Z :=
  (Z.of_nat (length (frames flats)) / Z.of_nat (length flat_loc))%Z.

(** Run [m] of the flat stack, [flats[m*q : (m+1)*q]]. *)
Definition flat_run (flats : stack) (q : Z) (m : nat) : stack :=
  stack_slice flats (Z.of_nat m * q) ((Z.of_nat m + 1) * q).

(** The exclusive end of segment [m]. *)
Definition boundary (flat_loc : list Z) (total : Z) (m : nat) : Z :=
  match flat_loc !! m, flat_loc !! (S m) with
  | Some loc, Some nxt => ((nxt - loc - 1) / 2 + loc)%Z
  | _, _ => total
  end.

(** The start of segment [m]. *)
Definition seg_lo (flat_loc : list Z) (total : Z) (m : nat) : Z :=
  match m with
  | O => 0%Z
  | S m' => boundary flat_loc total m'
  end.

(** ** What the kernel computes, as values *)

(** The guarded denominator of one pixel: [denom[denom == 0] = 1e-6]. *)
Definition guard (x : F32.t) : F32.t :=
  if F32.eqb x F32.zero then F32.eps else x.

(** The one-sided clamp of one pixel: [proj[proj > cutoff] = cutoff]. *)
Definition clip (cutoff : option F32.t) (x : F32.t) : F32.t :=
  match cutoff with
  | Some c => if F32.ltb c x then c else x
  | None => x
  end.

Definition clip_frame (cutoff : option F32.t) (a : frame) : frame :=
  match cutoff with
  | Some c => np.masked_fill (fun x => F32.ltb c x) c a
  | None => a
  end.

Definition denom_frame (F D : frame) : frame :=
  np.masked_fill (fun x => F32.eqb x F32.zero) F32.eps
    (zip_with (zip_with F32.sub) F D).

Definition norm_frame (cutoff : option F32.t) (DEN D P : frame) : frame :=
  clip_frame cutoff
    (zip_with (zip_with F32.div) (zip_with (zip_with F32.sub) P D) DEN).

Definition in_range (istart iend m : nat) : bool :=
  Nat.leb istart m && Nat.ltb m iend.

(** The frames [istart <= m < iend] normalised, the others as they were. *)
Definition kernel_on (istart iend : nat) (cutoff : option F32.t)
    (DEN D : frame) (v : volume) : volume :=
  imap (fun m P => if in_range istart iend m then norm_frame cutoff DEN D P else P) v.

(** The number of chunks of [cs] that hold frame [k]. *)
Fixpoint hits (k : nat) (cs : list (nat * nat)) : nat :=
  match cs with
  | [] => 0
  | ch :: cs' => (if in_range (fst ch) (snd ch) k then 1 else 0) + hits k cs'
  end.

(** The kernel run over the chunks of [cs], one after the other. *)
Definition apply_chunks (cutoff : option F32.t) (DEN D : frame)
    (cs : list (nat * nat)) (v : volume) : volume :=
  foldl (fun v ch => kernel_on (fst ch) (snd ch) cutoff DEN D v) v cs.

(** The reference the dispatched [normalize] is compared with (spec 4.3,
    8): the same reductions, then the kernel run once, sequentially, over
    every frame index in ascending order. *)
Definition normalize_sequential (tomo : volume) (flat dark : stack)
    (cutoff : option F32.t) : M volume :=
  flat <- reduce Mean flat ;;
  dark <- reduce Mean dark ;;
  set_shared_array tomo ;;;
  _normalize flat dark cutoff 0 (length tomo) ;;;
  get_shared_array.

(** A tomogram frame normalised with the median of flat run [m] and the
    median of the dark stack. *)
Definition nf_frame (cutoff : option F32.t) (flats dark : stack) (q : Z)
    (m : nat) (P : frame) : frame :=
  let D := np.reduced Median dark in
  norm_frame cutoff (denom_frame (np.reduced Median (flat_run flats q m)) D) D P.

(** The events of segments [m], [m+1], ..., [m+n-1], in program order. *)
Definition nf_events (flats : stack) (q : Z) (flat_loc : list Z) (total : Z)
    (m n : nat) : list event :=
  flat_map (fun j => [EvReduce Median (flat_run flats q j);
                      EvWrite (seg_lo flat_loc total j) (boundary flat_loc total j)])
           (seq m n).

(** The writes into the output volume recorded in a trace. *)
Definition writes (tr : list event) : list (Z * Z) :=
  omap (fun e => match e with EvWrite a b => Some (a, b) | _ => None end) tr.


(** ** Well-formed inputs *)

(** Every frame of the stack has the shape [sh]. *)
Definition uniform (sh : list nat) (v : volume) : bool :=
  forallb (fun a => bool_decide (shape a = sh)) v.

Fixpoint strictly_increasing (l : list Z) : bool :=
  match l with
  | x :: l' =>
      match l' with
      | y :: _ => Z.ltb x y && strictly_increasing l'
      | [] => true
      end
  | [] => true
  end.

(** The Flat-Location Index of a tomogram of [total] frames: at least one
    location, strictly increasing, each within [[0, total)]. *)
Definition valid_flat_loc (flat_loc : list Z) (total : Z) : bool :=
  negb (Nat.eqb (length flat_loc) 0)
  && strictly_increasing flat_loc
  && forallb (fun x => Z.leb 0 x && Z.ltb x total) flat_loc.

(** [ncore] and [nchunk], when given, are positive. *)
Definition valid_pool (E : executor) (ncore nchunk : option nat) : bool :=
  match nchunk with
  | Some c => negb (Nat.eqb c 0)
  | None => negb (Nat.eqb (match ncore with Some k => k | None => cpu_count E end) 0)
  end.

(** ** Small inputs used in the examples *)

(** A pool of two workers that runs the chunks last to first. *)
Definition reversing_pool : executor :=
  mkExecutor 2 (@rev (nat * nat)) (fun l => Permutation_sym (Permutation_rev l)).

(** [n] frames of a single pixel of value [x]. *)
Definition pixels (n : nat) (x : Z) : volume := replicate n [[F32.of_Z x]].

(** A stack of single-pixel frames. *)
Definition pixel_stack (v : volume) : stack := mkStack [1] v.

Definition empty_state : state := mkState [] [] [].

(** The largest power of two of float32, 2^127. *)
Definition two_pow_127 : F32.t := S754_finite false 8388608 104.

(** * Properties *)

(** ** Lists and shapes *)

Section ListFacts.

Context {A : Type}.
Implicit Types l : list A.

Lemma lookup_snoc l x : (l ++ [x]) !! length l = Some x.
Proof. by apply list_lookup_middle. Qed.

Lemma insert_snoc l x y : <[length l := y]> (l ++ [x]) = l ++ [y].
Proof.
  rewrite insert_app_r_alt by lia. by rewrite Nat.sub_diag.
Qed.

End ListFacts.

Lemma same_shape_true a b : same_shape a b = true <-> shape a = shape b.
Proof. unfold same_shape. apply bool_decide_eq_true. Qed.

Lemma shape_zip_with op a b :
  shape a = shape b -> shape (zip_with (zip_with op) a b) = shape a.
Proof.
  unfold shape. revert b. induction a as [|ra a IH]; intros [|rb b] H; simplify_eq/=; try done.
  f_equal; [|by apply IH]. rewrite length_zip_with. lia.
Qed.

Lemma shape_masked_fill mask v a : shape (np.masked_fill mask v a) = shape a.
Proof.
  unfold shape, np.masked_fill. rewrite map_map. apply map_ext. intros r.
  by rewrite length_map.
Qed.

Lemma shape_clip_frame cutoff a : shape (clip_frame cutoff a) = shape a.
Proof. destruct cutoff; [apply shape_masked_fill|done]. Qed.

Lemma shape_denom_frame F D : shape F = shape D -> shape (denom_frame F D) = shape D.
Proof.
  intros H. unfold denom_frame. rewrite shape_masked_fill, shape_zip_with; done.
Qed.

Lemma shape_norm_frame cutoff DEN D P :
  shape P = shape D -> shape DEN = shape D -> shape (norm_frame cutoff DEN D P) = shape D.
Proof.
  intros H1 H2. unfold norm_frame.
  rewrite shape_clip_frame, shape_zip_with; rewrite shape_zip_with; congruence.
Qed.

(** ** The kernel, run *)

(** One iteration, on a state where [dark] and [denom] are bound. *)
Lemma _normalize_frame_run dark denom cutoff m s D DEN :
  heap s !! dark = Some D ->
  heap s !! denom = Some DEN ->
  _normalize_frame dark denom cutoff m s =
    match SHARED_ARRAY s !! m with
    | None => (Raise IndexError, s)
    | Some P =>
        if same_shape P D && same_shape (zip_with (zip_with F32.sub) P D) DEN
        then (Ok tt,
              mkState (<[m := norm_frame cutoff DEN D P]> (SHARED_ARRAY s))
                      (heap s ++ [norm_frame cutoff DEN D P]) (trace s))
        else (Raise ValueError, s)
    end.
Proof.
  intros HD HDEN.
  unfold _normalize_frame, bind, shared_get, load, lift.
  destruct (SHARED_ARRAY s !! m) as [P|]; [|done].
  rewrite HD. unfold np.subtract, np.true_divide, np.elementwise.
  destruct (same_shape P D); [|done]. rewrite HDEN.
  destruct (same_shape _ DEN); [|done]. cbn.
  destruct cutoff as [c|]; cbn; unfold load, store, shared_set, ret; cbn;
    rewrite ?lookup_snoc; cbn; rewrite ?insert_snoc, ?lookup_snoc; done.
Qed.

Lemma _normalize_run flat dark cutoff istart iend s :
  _normalize flat dark cutoff istart iend s =
    match heap s !! flat with
    | None => (Raise UnboundObject, s)
    | Some F =>
        match heap s !! dark with
        | None => (Raise UnboundObject, s)
        | Some D =>
            if same_shape F D
            then for_each (range istart iend)
                   (_normalize_frame dark (length (heap s)) cutoff)
                   (mkState (SHARED_ARRAY s) (heap s ++ [denom_frame F D]) (trace s))
            else (Raise ValueError, s)
        end
    end.
Proof.
  unfold _normalize, bind, load, lift.
  destruct (heap s !! flat) as [F|]; [|done].
  destruct (heap s !! dark) as [D|]; [|done].
  unfold np.subtract, np.elementwise.
  destruct (same_shape F D); [|done]. cbn.
  rewrite lookup_snoc. cbn. by rewrite insert_snoc.
Qed.

Section Loop.

Variables (dark denom : loc) (cutoff : option F32.t) (D DEN : frame).

Local Abbreviation body := (_normalize_frame dark denom cutoff).

(** What the loop leaves alone, whether it returns or raises. *)
Lemma for_each_frame l : forall s,
  heap s !! dark = Some D ->
  heap s !! denom = Some DEN ->
  let s' := snd (for_each l body s) in
  (exists ext, heap s' = heap s ++ ext) /\
  trace s' = trace s /\
  length (SHARED_ARRAY s') = length (SHARED_ARRAY s) /\
  (forall k, k ∉ l -> SHARED_ARRAY s' !! k = SHARED_ARRAY s !! k).
Proof.
  induction l as [|m l IH]; intros s HD HDEN; cbn.
  - split_and!; [by exists []; rewrite app_nil_r|done..].
  - unfold bind. rewrite (_normalize_frame_run _ _ _ _ _ D DEN) by done.
    destruct (SHARED_ARRAY s !! m) as [P|] eqn:HP; cbn;
      [|split_and!; [by exists []; rewrite app_nil_r|done..]].
    destruct (_ && _); cbn;
      [|split_and!; [by exists []; rewrite app_nil_r|done..]].
    match goal with |- context [for_each l _ ?s1] =>
      destruct (IH s1) as (IH1 & IH2 & IH3 & IH4) end.
    { cbn. by apply lookup_app_l_Some. }
    { cbn. by apply lookup_app_l_Some. }
    cbn in *. split_and!.
    + destruct IH1 as [ext ->]. eexists. by rewrite <- app_assoc.
    + done.
    + by rewrite IH3, length_insert.
    + intros k Hk. rewrite IH4 by (intros ?; apply Hk; by right).
      apply list_lookup_insert_ne. intros ->. apply Hk. by left.
Qed.

(** On frames of the right shape the loop returns, and normalises exactly
    the frames of [l]. *)
Lemma for_each_ok l : forall s,
  heap s !! dark = Some D ->
  heap s !! denom = Some DEN ->
  shape DEN = shape D ->
  NoDup l ->
  (forall m, m ∈ l -> exists P, SHARED_ARRAY s !! m = Some P /\ shape P = shape D) ->
  exists V ext,
    for_each l body s = (Ok tt, mkState V (heap s ++ ext) (trace s)) /\
    forall k, V !! k =
      (if bool_decide (k ∈ l) then norm_frame cutoff DEN D else id)
        <$> SHARED_ARRAY s !! k.
Proof.
  induction l as [|m l IH]; intros s HD HDEN Hsh Hnd Hl; cbn.
  - exists (SHARED_ARRAY s), []. rewrite app_nil_r. split; [by destruct s|].
    intros k. rewrite bool_decide_eq_false_2 by apply not_elem_of_nil.
    by rewrite option_fmap_id.
  - apply NoDup_cons in Hnd as [Hm Hnd].
    destruct (Hl m) as (P & HP & HPs); [by left|].
    unfold bind. rewrite (_normalize_frame_run _ _ _ _ _ D DEN) by done.
    rewrite HP.
    assert (same_shape P D = true) as -> by by apply same_shape_true.
    assert (same_shape (zip_with (zip_with F32.sub) P D) DEN = true) as ->.
    { apply same_shape_true. rewrite shape_zip_with; congruence. }
    cbn.
    match goal with |- context [for_each l _ ?s1] =>
      destruct (IH s1) as (V & ext & -> & HV) end; cbn.
    { by apply lookup_app_l_Some. }
    { by apply lookup_app_l_Some. }
    { done. }
    { done. }
    { intros k Hk. destruct (Hl k) as (Q & HQ & HQs); [by right|].
      exists Q. split; [|done]. rewrite list_lookup_insert_ne; [done|].
      intros ->. done. }
    exists V. eexists. rewrite <- app_assoc. split; [done|].
    intros k. rewrite HV. cbn. destruct (decide (k = m)) as [->|Hne].
    + rewrite bool_decide_eq_false_2 by done.
      rewrite bool_decide_eq_true_2 by by left.
      rewrite list_lookup_insert_eq by (by eapply lookup_lt_Some).
      by rewrite HP.
    + rewrite list_lookup_insert_ne by done.
      destruct (decide (k ∈ l)).
      * rewrite !bool_decide_eq_true_2; [done|by right|done].
      * rewrite !bool_decide_eq_false_2; [done| |done].
        intros [?|?]%elem_of_cons; done.
Qed.

End Loop.

Lemma elem_of_range a b m : m ∈ range a b <-> a <= m < b.
Proof. unfold range. rewrite elem_of_seq. lia. Qed.

Lemma in_range_spec a b m : in_range a b m = true <-> a <= m < b.
Proof.
  unfold in_range. rewrite andb_true_iff, Nat.leb_le, Nat.ltb_lt. done.
Qed.

Lemma lookup_kernel_on a b cutoff DEN D v k :
  kernel_on a b cutoff DEN D v !! k =
    (if in_range a b k then norm_frame cutoff DEN D else id) <$> v !! k.
Proof.
  unfold kernel_on. rewrite list_lookup_imap.
  destruct (v !! k); cbn; [|done]. by destruct (in_range a b k).
Qed.

Lemma uniform_lookup sh v : uniform sh v = true <-> forall m P, v !! m = Some P -> shape P = sh.
Proof.
  unfold uniform. rewrite forallb_forall. split.
  - intros H m P HP. eapply bool_decide_eq_true_1, H, list_elem_of_In, list_elem_of_lookup_2, HP.
  - intros H P HP. apply bool_decide_eq_true_2.
    apply list_elem_of_In, list_elem_of_lookup in HP as [m HP]. eauto.
Qed.

Lemma _normalize_ok flat dark cutoff istart iend s F D :
  heap s !! flat = Some F ->
  heap s !! dark = Some D ->
  shape F = shape D ->
  uniform (shape D) (SHARED_ARRAY s) = true ->
  iend <= length (SHARED_ARRAY s) ->
  exists ext,
    _normalize flat dark cutoff istart iend s =
      (Ok tt, mkState (kernel_on istart iend cutoff (denom_frame F D) D (SHARED_ARRAY s))
                      (heap s ++ ext) (trace s)).
Proof.
  intros HF HD Hsh Hu Hlen. rewrite _normalize_run, HF, HD.
  assert (same_shape F D = true) as -> by by apply same_shape_true.
  edestruct (for_each_ok dark (length (heap s)) cutoff D (denom_frame F D) (range istart iend))
    as (V & ext & Hrun & HV); cycle 5.
  - rewrite Hrun. cbn. exists ([denom_frame F D] ++ ext). rewrite <- app_assoc.
    do 3 f_equal. apply list_eq. intros k. rewrite HV, lookup_kernel_on. cbn.
    destruct (in_range istart iend k) eqn:Hr.
    + rewrite bool_decide_eq_true_2; [done|]. by apply elem_of_range, in_range_spec.
    + rewrite bool_decide_eq_false_2; [done|]. rewrite elem_of_range, <- in_range_spec. congruence.
  - cbn. by apply lookup_app_l_Some.
  - cbn. apply lookup_snoc.
  - by apply shape_denom_frame.
  - apply NoDup_seq.
  - cbn. intros m [_ Hm]%elem_of_range.
    destruct (lookup_lt_is_Some_2 (SHARED_ARRAY s) m) as [P HP]; [lia|].
    exists P. split; [done|]. eapply uniform_lookup; eauto.
Qed.

(** ** Chunks *)

Lemma hits_app k cs1 cs2 : hits k (cs1 ++ cs2) = hits k cs1 + hits k cs2.
Proof. induction cs1 as [|ch cs1 IH]; cbn; [done|]. rewrite IH. lia. Qed.

Lemma hits_Permutation k cs1 cs2 : Permutation cs1 cs2 -> hits k cs1 = hits k cs2.
Proof. induction 1; cbn; lia. Qed.

Section Partition.

Variable b : nat -> nat.
Hypothesis b_mono : forall i, b i <= b (S i).

Lemma hits_bounds k K :
  hits k (map (fun i => (b i, b (S i))) (seq 0 K)) =
    if in_range (b 0) (b K) k then 1 else 0.
Proof.
  induction K as [|K IH].
  - cbn. destruct (in_range (b 0) (b 0) k) eqn:H; [|done].
    apply in_range_spec in H. lia.
  - rewrite seq_S, map_app, hits_app, IH. cbn.
    pose proof (b_mono K).
    assert (b 0 <= b K) by (clear -b_mono; induction K; [done|]; specialize (b_mono K); lia).
    destruct (in_range (b 0) (b K) k) eqn:H1, (in_range (b K) (b (S K)) k) eqn:H2,
      (in_range (b 0) (b (S K)) k) eqn:H3; try done;
      rewrite ?in_range_spec in *;
      repeat match goal with H : _ = false |- _ =>
        apply not_true_iff_false in H; rewrite in_range_spec in H end; lia.
Qed.

End Partition.

Lemma chunks_of_size_hits n c k :
  0 < c -> hits k (chunks_of_size n c) = if Nat.ltb k n then 1 else 0.
Proof.
  intros Hc.
  assert (chunks_of_size n c =
          map (fun i => (Nat.min (i * c) n, Nat.min (S i * c) n))
              (seq 0 ((n + c - 1) / c))) as ->.
  { apply map_ext. intros i. by rewrite Nat.add_1_r. }
  rewrite (hits_bounds (fun i => Nat.min (i * c) n)) by (intros i; cbn; lia).
  cbn. set (K := (n + c - 1) / c).
  assert (n <= K * c).
  { pose proof (Nat.div_mod (n + c - 1) c ltac:(lia)).
    pose proof (Nat.mod_upper_bound (n + c - 1) c ltac:(lia)). subst K. nia. }
  rewrite Nat.min_r by done.
  done.
Qed.

Lemma chunks_even_hits n c k :
  0 < c -> hits k (chunks_even n c) = if Nat.ltb k n then 1 else 0.
Proof.
  intros Hc.
  assert (chunks_even n c =
          map (fun i => (i * (n / c) + Nat.min i (n mod c),
                         S i * (n / c) + Nat.min (S i) (n mod c)))
              (seq 0 c)) as ->.
  { apply map_ext. intros i. by rewrite Nat.add_1_r. }
  rewrite (hits_bounds (fun i => i * (n / c) + Nat.min i (n mod c)))
    by (intros i; nia).
  cbv beta.
  pose proof (Nat.div_mod n c ltac:(lia)).
  pose proof (Nat.mod_upper_bound n c ltac:(lia)).
  rewrite (Nat.min_r c) by lia.
  replace (c * (n / c) + Nat.modulo n c) with n by lia.
  done.
Qed.

Lemma chunks_of_size_bound n c ch : ch ∈ chunks_of_size n c -> snd ch <= n.
Proof.
  unfold chunks_of_size. intros (i & -> & _)%list_elem_of_fmap. cbn. lia.
Qed.

Lemma chunks_even_bound n c ch : 0 < c -> ch ∈ chunks_even n c -> snd ch <= n.
Proof.
  unfold chunks_even. intros Hc (i & -> & Hi)%list_elem_of_fmap. cbn.
  apply elem_of_seq in Hi.
  pose proof (Nat.div_mod n c ltac:(lia)).
  pose proof (Nat.mod_upper_bound n c ltac:(lia)).
  assert ((i + 1) * (n / c) <= c * (n / c)) by nia. lia.
Qed.

Lemma chunk_ranges_ok E n ncore nchunk :
  valid_pool E ncore nchunk = true ->
  exists cs, chunk_ranges E n ncore nchunk = Ok cs /\
    (forall k, hits k cs = if Nat.ltb k n then 1 else 0) /\
    (forall ch, ch ∈ cs -> snd ch <= n).
Proof.
  unfold valid_pool, chunk_ranges. destruct nchunk as [c|].
  - destruct (Nat.eqb_spec c 0); [done|]. intros _. eexists. split; [done|].
    split; [intros k; apply chunks_of_size_hits; lia|apply chunks_of_size_bound].
  - set (k := match ncore with Some k => k | None => cpu_count E end).
    destruct (Nat.eqb_spec k 0); [done|]. intros _. eexists. split; [done|].
    split; [intros j; apply chunks_even_hits; lia|intros ch; apply chunks_even_bound; lia].
Qed.

Lemma length_kernel_on a b cutoff DEN D v :
  length (kernel_on a b cutoff DEN D v) = length v.
Proof. unfold kernel_on. by rewrite length_imap. Qed.

Lemma uniform_kernel_on a b cutoff DEN D v :
  shape DEN = shape D ->
  uniform (shape D) v = true ->
  uniform (shape D) (kernel_on a b cutoff DEN D v) = true.
Proof.
  intros Hs Hu. apply uniform_lookup. intros m P. rewrite lookup_kernel_on.
  destruct (v !! m) as [Q|] eqn:HQ; [|done]. cbn. intros [= <-].
  pose proof (proj1 (uniform_lookup _ _) Hu m Q HQ).
  destruct (in_range a b m); [by apply shape_norm_frame|done].
Qed.

Lemma lookup_apply_chunks cutoff DEN D cs : forall v k,
  apply_chunks cutoff DEN D cs v !! k =
    Nat.iter (hits k cs) (norm_frame cutoff DEN D) <$> v !! k.
Proof.
  induction cs as [|ch cs IH]; intros v k; cbn.
  - by destruct (v !! k).
  - unfold apply_chunks in *. rewrite IH, lookup_kernel_on.
    destruct (v !! k) as [P|]; [|done]. cbn.
    destruct (in_range ch.1 ch.2 k); [|done].
    by rewrite Nat.add_1_l, Nat.iter_succ_r.
Qed.

(** Chunks that cover each frame exactly once, in any order, amount to one
    pass over all the frames. *)
Lemma apply_chunks_partition cutoff DEN D cs v :
  (forall k, hits k cs = if Nat.ltb k (length v) then 1 else 0) ->
  apply_chunks cutoff DEN D cs v = map (norm_frame cutoff DEN D) v.
Proof.
  intros H. apply list_eq. intros k.
  rewrite lookup_apply_chunks, list_lookup_fmap, H.
  destruct (v !! k) as [P|] eqn:HP; [|done].
  apply lookup_lt_Some in HP. apply Nat.ltb_lt in HP. by rewrite HP.
Qed.

Lemma kernel_on_all cutoff DEN D v :
  kernel_on 0 (length v) cutoff DEN D v = map (norm_frame cutoff DEN D) v.
Proof.
  apply list_eq. intros k. rewrite lookup_kernel_on, list_lookup_fmap.
  destruct (v !! k) as [P|] eqn:HP; [|done].
  apply lookup_lt_Some in HP.
  assert (in_range 0 (length v) k = true) as -> by (apply in_range_spec; lia). done.
Qed.

Lemma for_each_chunks flat dark cutoff F D cs : forall s,
  heap s !! flat = Some F ->
  heap s !! dark = Some D ->
  shape F = shape D ->
  uniform (shape D) (SHARED_ARRAY s) = true ->
  (forall ch, ch ∈ cs -> snd ch <= length (SHARED_ARRAY s)) ->
  exists ext,
    for_each cs (fun ch => _normalize flat dark cutoff (fst ch) (snd ch)) s =
      (Ok tt, mkState (apply_chunks cutoff (denom_frame F D) D cs (SHARED_ARRAY s))
                      (heap s ++ ext) (trace s)).
Proof.
  induction cs as [|ch cs IH]; intros s HF HD Hs Hu Hb; cbn.
  - exists []. rewrite app_nil_r. by destruct s.
  - unfold bind.
    destruct (_normalize_ok flat dark cutoff ch.1 ch.2 s F D) as [ext1 ->]; try done.
    { apply Hb. by left. }
    match goal with |- context [for_each cs _ ?s1] =>
      destruct (IH s1) as [ext2 ->] end; cbn.
    + by apply lookup_app_l_Some.
    + by apply lookup_app_l_Some.
    + done.
    + apply uniform_kernel_on; [by apply shape_denom_frame|done].
    + intros ch' Hch'. rewrite length_kernel_on. apply Hb. by right.
    + exists (ext1 ++ ext2). by rewrite <- app_assoc.
Qed.

Lemma distribute_jobs_normalize E arr flat dark cutoff ncore nchunk s F D :
  valid_pool E ncore nchunk = true ->
  heap s !! flat = Some F ->
  heap s !! dark = Some D ->
  shape F = shape D ->
  uniform (shape D) arr = true ->
  exists ext,
    distribute_jobs E arr (_normalize flat dark cutoff) ncore nchunk s =
      (Ok (map (norm_frame cutoff (denom_frame F D) D) arr),
       mkState (map (norm_frame cutoff (denom_frame F D) D) arr)
               (heap s ++ ext) (trace s)).
Proof.
  intros Hv HF HD Hs Hu. unfold distribute_jobs, bind, set_shared_array, lift.
  destruct (chunk_ranges_ok E (length arr) ncore nchunk Hv) as (cs & -> & Hh & Hb).
  match goal with |- context [for_each ?l _ ?s1] =>
    destruct (for_each_chunks flat dark cutoff F D l s1) as [ext ->] end; cbn; try done.
  - intros ch Hch. apply Hb. by rewrite <- (schedule_perm E cs).
  - exists ext. unfold get_shared_array. cbn.
    rewrite apply_chunks_partition; [done|].
    intros k. rewrite <- Hh. apply hits_Permutation, schedule_perm.
Qed.

(** ** Plain normalisation *)

Lemma reduce_run st v s :
  reduce st v s =
    (Ok (length (heap s)),
     mkState (SHARED_ARRAY s) (heap s ++ [np.reduced st v]) (trace s ++ [EvReduce st v])).
Proof. done. Qed.

Lemma shape_reduced st v : shape (np.reduced st v) = frame_shape v.
Proof.
  unfold shape, np.reduced. apply list_eq. intros r.
  rewrite list_lookup_fmap, list_lookup_imap.
  destruct (frame_shape v !! r); cbn; [|done].
  by rewrite length_map, length_seq.
Qed.

Section Normalize.

Variable E : executor.
Variable tomo : volume.
Variables flat dark : stack.
Variable cutoff : option F32.t.
Variables ncore nchunk : option nat.
Variable sh : list nat.
Hypothesis pool_ok : valid_pool E ncore nchunk = true.
Hypothesis tomo_sh : uniform sh tomo = true.
Hypothesis flat_sh : frame_shape flat = sh.
Hypothesis dark_sh : frame_shape dark = sh.

Local Abbreviation F := (np.reduced Mean flat).
Local Abbreviation D := (np.reduced Mean dark).
Local Abbreviation out := (map (norm_frame cutoff (denom_frame F D) D) tomo).

Lemma normalize_ok s :
  exists ext,
    normalize E tomo flat dark cutoff ncore nchunk s =
      (Ok out,
       mkState out (heap s ++ ext)
               (trace s ++ [EvReduce Mean flat; EvReduce Mean dark])).
Proof.
  unfold normalize, bind.
  rewrite reduce_run. cbv beta iota.
  rewrite reduce_run. cbv beta iota. cbn [heap SHARED_ARRAY trace].
  match goal with |- context [distribute_jobs E tomo (_normalize ?fl ?dl _) ncore nchunk ?s1] =>
    destruct (distribute_jobs_normalize E tomo fl dl
                cutoff ncore nchunk s1 F D) as [ext ->] end; cbn; try done.
  - rewrite <- app_assoc. apply list_lookup_middle. done.
  - apply lookup_snoc.
  - rewrite !shape_reduced. congruence.
  - by rewrite shape_reduced, dark_sh.
  - eexists. by rewrite <- !app_assoc.
Qed.

Lemma normalize_sequential_ok s :
  exists ext,
    normalize_sequential tomo flat dark cutoff s =
      (Ok out,
       mkState out (heap s ++ ext)
               (trace s ++ [EvReduce Mean flat; EvReduce Mean dark])).
Proof.
  unfold normalize_sequential, bind.
  rewrite reduce_run. cbv beta iota.
  rewrite reduce_run. cbv beta iota. cbn [heap SHARED_ARRAY trace].
  unfold set_shared_array. cbn [heap SHARED_ARRAY trace].
  match goal with |- context [_normalize ?f ?d cutoff 0 ?n ?s1] =>
    destruct (_normalize_ok f d cutoff 0 n s1 F D) as [ext ->] end;
    cbn [heap SHARED_ARRAY trace]; try done.
  - rewrite <- app_assoc. apply list_lookup_middle. done.
  - apply lookup_snoc.
  - rewrite !shape_reduced. congruence.
  - by rewrite shape_reduced, dark_sh.
  - eexists. unfold get_shared_array. cbn [heap SHARED_ARRAY trace].
    rewrite kernel_on_all. by rewrite <- !app_assoc.
Qed.

End Normalize.


(** ** Segments *)

Local Open Scope Z_scope.


Section Segments.

Variable flat_loc : list Z.
Variable total : Z.

Lemma seg_end_boundary m loc :
  flat_loc !! m = Some loc ->
  seg_end flat_loc (Z.of_nat (length flat_loc)) total m loc =
    Ok (boundary flat_loc total m).
Proof.
  intros Hm. unfold seg_end, boundary, index. rewrite Hm.
  pose proof (lookup_lt_Some _ _ _ Hm).
  destruct (Z.leb_spec (Z.of_nat (length flat_loc) - 1) (Z.of_nat m)).
  - rewrite (lookup_ge_None_2 flat_loc (S m)) by lia. done.
  - rewrite Nat.add_1_r.
    destruct (lookup_lt_is_Some_2 flat_loc (S m)) as [nxt ->]; [lia|done].
Qed.

Lemma segments_from_lookup l : forall m tend j,
  drop m flat_loc = l ->
  segments_from flat_loc total (enumerate_from m l) tend !! j =
    if decide (j < length l)%nat
    then Some (match j with O => seg_start m tend
               | S j' => boundary flat_loc total (m + j') end,
               boundary flat_loc total (m + j))
    else None.
Proof.
  induction l as [|loc l IH]; intros m tend j Hl; cbn [enumerate_from segments_from].
  - rewrite decide_False by (cbn; lia). done.
  - assert (flat_loc !! m = Some loc) as Hm.
    { rewrite <- (Nat.add_0_r m), <- lookup_drop, Hl. done. }
    assert (drop (S m) flat_loc = l) as Hl'.
    { pose proof (drop_S _ _ _ Hm) as Hd. rewrite Hl in Hd. congruence. }
    rewrite (seg_end_boundary m loc Hm).
    destruct j as [|j]; cbn [lookup list_lookup].
    + rewrite decide_True by (cbn; lia). by rewrite Nat.add_0_r.
    + rewrite (IH (S m) _ j Hl'). cbn [length].
      destruct (decide (j < length l)%nat).
      * rewrite decide_True by lia. f_equal. rewrite <- Nat.add_succ_comm.
        f_equal. destruct j; [|by rewrite <- Nat.add_succ_comm].
        unfold seg_start. cbn. by rewrite Nat.add_0_r.
      * rewrite decide_False by lia. done.
Qed.

Lemma segments_lookup j :
  (j < length flat_loc)%nat ->
  segments flat_loc total !! j =
    Some (seg_lo flat_loc total j, boundary flat_loc total j).
Proof.
  intros Hj. unfold segments, enumerate.
  rewrite (segments_from_lookup flat_loc 0 0 j) by done.
  rewrite decide_True by done. by destruct j.
Qed.

Lemma segments_lookup_ge j :
  (length flat_loc <= j)%nat -> segments flat_loc total !! j = None.
Proof.
  intros Hj. unfold segments, enumerate.
  rewrite (segments_from_lookup flat_loc 0 0 j) by done.
  by rewrite decide_False by lia.
Qed.

Lemma length_segments : length (segments flat_loc total) = length flat_loc.
Proof.
  destruct (Nat.lt_trichotomy (length (segments flat_loc total)) (length flat_loc))
    as [H|[H|H]]; [|done|].
  - pose proof (segments_lookup _ H) as E.
    apply lookup_lt_Some in E. lia.
  - pose proof (segments_lookup_ge (length flat_loc) ltac:(lia)) as E.
    apply lookup_ge_None in E. lia.
Qed.

Lemma segments_lookup_Some j a b :
  segments flat_loc total !! j = Some (a, b) <->
  (j < length flat_loc)%nat /\ a = seg_lo flat_loc total j /\ b = boundary flat_loc total j.
Proof.
  split.
  - intros H. assert (j < length flat_loc)%nat as Hj.
    { rewrite <- length_segments. by eapply lookup_lt_Some. }
    rewrite segments_lookup in H by done. by simplify_eq.
  - intros (Hj & -> & ->). by apply segments_lookup.
Qed.

End Segments.

Lemma strictly_increasing_succ l : forall i x y,
  strictly_increasing l = true ->
  l !! i = Some x -> l !! S i = Some y -> x < y.
Proof.
  induction l as [|a l IH]; intros i x y Hs Hx Hy; [done|].
  destruct l as [|b l]; [done|]. cbn in Hs. apply andb_true_iff in Hs as [Hab Hs].
  destruct i as [|i]; cbn in *.
  - simplify_eq. by apply Z.ltb_lt.
  - by eapply IH.
Qed.

Lemma strictly_increasing_lt l i j x y :
  strictly_increasing l = true ->
  (i < j)%nat -> l !! i = Some x -> l !! j = Some y -> x < y.
Proof.
  intros Hs Hij Hx. revert y. induction Hij as [|j Hij IH]; intros y Hy.
  - by eapply strictly_increasing_succ.
  - destruct (lookup_lt_is_Some_2 l j) as [z Hz].
    { apply lookup_lt_Some in Hy. lia. }
    specialize (IH z Hz). pose proof (strictly_increasing_succ l j z y Hs Hz Hy). lia.
Qed.

Section ValidSegments.

Variable flat_loc : list Z.
Variable total : Z.
Hypothesis valid : valid_flat_loc flat_loc total = true.

Local Abbreviation B := (boundary flat_loc total).
Local Abbreviation L := (seg_lo flat_loc total).

Lemma valid_nonempty : (0 < length flat_loc)%nat.
Proof.
  unfold valid_flat_loc in valid. rewrite !andb_true_iff in valid.
  destruct valid as [[H _] _]. apply negb_true_iff, Nat.eqb_neq in H. lia.
Qed.

Lemma valid_increasing : strictly_increasing flat_loc = true.
Proof.
  unfold valid_flat_loc in valid. rewrite !andb_true_iff in valid. tauto.
Qed.

Lemma valid_bounds m loc : flat_loc !! m = Some loc -> 0 <= loc < total.
Proof.
  intros Hm. unfold valid_flat_loc in valid. rewrite !andb_true_iff in valid.
  destruct valid as [_ H]. rewrite forallb_forall in H.
  specialize (H loc). rewrite andb_true_iff, Z.leb_le, Z.ltb_lt in H.
  apply H, list_elem_of_In, list_elem_of_lookup_2 with m, Hm.
Qed.

Lemma boundary_last m :
  S m = length flat_loc -> B m = total.
Proof.
  intros Hm. unfold boundary.
  rewrite (lookup_ge_None_2 flat_loc (S m)) by lia. by destruct (flat_loc !! m).
Qed.

Lemma boundary_bounds m loc :
  flat_loc !! m = Some loc -> loc <= B m <= total.
Proof.
  intros Hm. unfold boundary. rewrite Hm.
  pose proof (valid_bounds m loc Hm).
  destruct (flat_loc !! S m) as [nxt|] eqn:Hn; [|lia].
  pose proof (valid_bounds _ _ Hn).
  pose proof (strictly_increasing_succ _ _ _ _ valid_increasing Hm Hn).
  pose proof (Z.div_pos (nxt - loc - 1) 2 ltac:(lia) ltac:(lia)).
  pose proof (Z.mul_div_le (nxt - loc - 1) 2 ltac:(lia)). lia.
Qed.

Lemma boundary_lt_next m nxt :
  flat_loc !! S m = Some nxt -> B m < nxt.
Proof.
  intros Hn. unfold boundary. rewrite Hn.
  destruct (lookup_lt_is_Some_2 flat_loc m) as [loc Hm].
  { apply lookup_lt_Some in Hn. lia. }
  rewrite Hm.
  pose proof (strictly_increasing_succ _ _ _ _ valid_increasing Hm Hn).
  pose proof (Z.mul_div_le (nxt - loc - 1) 2 ltac:(lia)). lia.
Qed.

Lemma boundary_step m :
  (S m < length flat_loc)%nat -> B m <= B (S m).
Proof.
  intros Hm. destruct (lookup_lt_is_Some_2 flat_loc (S m) Hm) as [nxt Hn].
  pose proof (boundary_lt_next m nxt Hn).
  pose proof (boundary_bounds (S m) nxt Hn). lia.
Qed.

Lemma boundary_mono m m' :
  (m <= m')%nat -> (m' < length flat_loc)%nat -> B m <= B m'.
Proof.
  induction 1 as [|m' Hle IH]; intros Hm'; [lia|].
  pose proof (boundary_step m' Hm'). lia.
Qed.

Lemma seg_lo_bounds m :
  (m < length flat_loc)%nat -> 0 <= L m <= B m.
Proof.
  intros Hm. destruct m as [|m]; cbn.
  - destruct (lookup_lt_is_Some_2 flat_loc 0 Hm) as [loc H0].
    pose proof (valid_bounds _ _ H0). pose proof (boundary_bounds _ _ H0). lia.
  - destruct (lookup_lt_is_Some_2 flat_loc m) as [loc H0]; [lia|].
    pose proof (valid_bounds _ _ H0). pose proof (boundary_bounds _ _ H0).
    pose proof (boundary_step m Hm). lia.
Qed.

Lemma boundary_le_total m : (m < length flat_loc)%nat -> B m <= total.
Proof.
  intros Hm. destruct (lookup_lt_is_Some_2 flat_loc m Hm) as [loc H0].
  pose proof (boundary_bounds _ _ H0). lia.
Qed.

Lemma segments_cover t :
  0 <= t < total ->
  exists m, (m < length flat_loc)%nat /\ L m <= t < B m.
Proof.
  intros Ht.
  assert (forall k, (k <= length flat_loc)%nat ->
            (exists m, (m < k)%nat /\ L m <= t < B m) \/ L k <= t) as H.
  { induction k as [|k IH]; intros Hk; [right; cbn; lia|].
    destruct IH as [(m & Hm & Hin)|Hlo]; [lia|left; exists m; split; [lia|done]|].
    destruct (Z.lt_ge_cases t (B k)); [left; exists k; split; [lia|done]|].
    right. done. }
  destruct (H (length flat_loc)) as [(m & Hm & Hin)|Hlo]; [done|by exists m|].
  pose proof valid_nonempty.
  destruct (length flat_loc) as [|n] eqn:Hn; [lia|].
  cbn in Hlo. rewrite boundary_last in Hlo by done. lia.
Qed.

Lemma segments_disjoint t m m' :
  (m < length flat_loc)%nat -> (m' < length flat_loc)%nat ->
  L m <= t < B m -> L m' <= t < B m' -> m = m'.
Proof.
  assert (forall a b, (a < b)%nat -> (b < length flat_loc)%nat ->
            L a <= t < B a -> L b <= t < B b -> False) as H.
  { intros a b Hab Hb Ha Hb'. destruct b as [|b]; [lia|].
    cbn in Hb'.
    pose proof (boundary_mono a b ltac:(lia) ltac:(lia)). lia. }
  intros Hm Hm' Ht Ht'.
  destruct (Nat.lt_trichotomy m m') as [Hlt|[->|Hlt]]; [|done|]; exfalso; eauto.
Qed.

End ValidSegments.

Local Close Scope Z_scope.

(** ** Slices *)

Section Slices.

Context {A : Type}.
Implicit Types l : list A.

Lemma slice_index_nat n i :
  (0 <= i <= Z.of_nat n)%Z -> slice_index n i = Z.to_nat i.
Proof.
  intros Hi. unfold slice_index.
  destruct (Z.ltb_spec i 0); [lia|]. by rewrite Z.min_l by lia.
Qed.

Lemma slice_nat l a b :
  (0 <= a <= b)%Z -> (b <= Z.of_nat (length l))%Z ->
  slice l a b = take (Z.to_nat b - Z.to_nat a) (drop (Z.to_nat a) l).
Proof.
  intros Ha Hb. unfold slice. by rewrite !slice_index_nat by lia.
Qed.

Lemma length_slice l a b :
  (0 <= a <= b)%Z -> (b <= Z.of_nat (length l))%Z ->
  length (slice l a b) = (Z.to_nat b - Z.to_nat a)%nat.
Proof.
  intros Ha Hb. rewrite slice_nat by done.
  rewrite length_take, length_drop. lia.
Qed.

Lemma slice_assign_nat l a b new :
  (0 <= a <= b)%Z -> (b <= Z.of_nat (length l))%Z ->
  length new = (Z.to_nat b - Z.to_nat a)%nat ->
  slice_assign l a b new =
    Ok (take (Z.to_nat a) l ++ new ++ drop (Z.to_nat b) l).
Proof.
  intros Ha Hb Hn. unfold slice_assign. rewrite !slice_index_nat by lia.
  rewrite Hn, Nat.eqb_refl. do 4 f_equal. lia.
Qed.

End Slices.

Lemma uniform_sublist sh (v w : volume) :
  (forall P, P ∈ w -> P ∈ v) -> uniform sh v = true -> uniform sh w = true.
Proof.
  unfold uniform. rewrite !forallb_forall. intros Hs H P HP.
  apply H. apply list_elem_of_In, Hs, list_elem_of_In, HP.
Qed.

Lemma uniform_slice sh (v : volume) a b :
  uniform sh v = true -> uniform sh (slice v a b) = true.
Proof.
  apply uniform_sublist. intros P HP. unfold slice in HP.
  eapply elem_of_sublist; [eapply elem_of_sublist; [exact HP|apply sublist_take]|].
  apply sublist_drop.
Qed.

(** ** Nearest-flat normalisation *)

Lemma lookup_splice {A} (arr tomo : list A) (a b : nat) (f : A -> A) (t : nat) :
  (a <= b)%nat -> (b <= length tomo)%nat -> length arr = length tomo ->
  (take a arr ++ map f (take (b - a) (drop a tomo)) ++ drop b arr) !! t =
    if decide (t < a)%nat then arr !! t
    else if decide (t < b)%nat then f <$> tomo !! t
    else arr !! t.
Proof.
  intros Hab Hb Hlen.
  destruct (decide (t < a)%nat).
  - rewrite lookup_app_l by (rewrite length_take; lia).
    by rewrite lookup_take_lt.
  - rewrite lookup_app_r by (rewrite length_take; lia).
    rewrite length_take, Nat.min_l by lia.
    destruct (decide (t < b)%nat).
    + rewrite lookup_app_l by (rewrite length_map, length_take, length_drop; lia).
      rewrite list_lookup_fmap, lookup_take_lt, lookup_drop by lia.
      do 2 f_equal. lia.
    + rewrite lookup_app_r by (rewrite length_map, length_take, length_drop; lia).
      rewrite length_map, length_take, length_drop, lookup_drop.
      f_equal. lia.
Qed.

Section NearestFlat.

Variable E : executor.
Variable tomo : volume.
Variables flats dark : stack.
Variable flat_loc : list Z.
Variable cutoff : option F32.t.
Variables ncore nchunk : option nat.
Variable sh : list nat.

Local Abbreviation total := (Z.of_nat (length tomo)).
Local Abbreviation q := (num_per_flat flats flat_loc).
Local Abbreviation D := (np.reduced Median dark).
Local Abbreviation B := (boundary flat_loc total).
Local Abbreviation L := (seg_lo flat_loc total).
Local Abbreviation nf := (nf_frame cutoff flats dark q).

Hypothesis loc_ok : valid_flat_loc flat_loc total = true.
Hypothesis pool_ok : valid_pool E ncore nchunk = true.
Hypothesis tomo_sh : uniform sh tomo = true.
Hypothesis flats_sh : frame_shape flats = sh.
Hypothesis dark_sh : frame_shape dark = sh.

Lemma num_per_flat_nonneg : (0 <= q)%Z.
Proof.
  pose proof (valid_nonempty _ _ loc_ok).
  unfold num_per_flat. apply Z.div_pos; lia.
Qed.

Lemma flat_run_bounds m :
  (m < length flat_loc)%nat ->
  (0 <= Z.of_nat m * q <= (Z.of_nat m + 1) * q)%Z /\
  ((Z.of_nat m + 1) * q <= Z.of_nat (length (frames flats)))%Z.
Proof.
  intros Hm. pose proof num_per_flat_nonneg.
  pose proof (valid_nonempty _ _ loc_ok).
  pose proof (Z.mul_div_le (Z.of_nat (length (frames flats)))
                (Z.of_nat (length flat_loc)) ltac:(lia)) as Hq.
  fold (num_per_flat flats flat_loc) in Hq. split; [nia|]. nia.
Qed.

Lemma length_flat_run m :
  (m < length flat_loc)%nat ->
  length (frames (flat_run flats q m)) = Z.to_nat q.
Proof.
  intros Hm. destruct (flat_run_bounds m Hm). unfold flat_run, stack_slice.
  cbn [frames]. rewrite length_slice by done. lia.
Qed.

Lemma shape_D : shape D = sh.
Proof. by rewrite shape_reduced. Qed.

Lemma normalize_nf_body_ok dark_l m loc tend arr s :
  flat_loc !! m = Some loc ->
  heap s !! dark_l = Some D ->
  length arr = length tomo ->
  seg_start m tend = L m ->
  exists s',
    normalize_nf_body E tomo flats dark_l flat_loc cutoff ncore nchunk q
      m loc tend arr s =
      (Ok (B m,
           take (Z.to_nat (L m)) arr
             ++ map (nf m) (take (Z.to_nat (B m) - Z.to_nat (L m))
                                 (drop (Z.to_nat (L m)) tomo))
             ++ drop (Z.to_nat (B m)) arr), s') /\
    heap s' !! dark_l = Some D /\
    trace s' = trace s ++ nf_events flats q flat_loc total m 1.
Proof.
  intros Hm HD Hlen Hst.
  pose proof (lookup_lt_Some _ _ _ Hm) as Hlt.
  pose proof (seg_lo_bounds _ _ loc_ok m Hlt) as HL.
  pose proof (boundary_le_total _ _ loc_ok m Hlt) as HB.
  unfold normalize_nf_body, bind.
  fold (flat_run flats q m).
  rewrite reduce_run.
  cbv beta iota. unfold lift.
  rewrite (seg_end_boundary flat_loc total m loc Hm). rewrite Hst.
  match goal with |- context [distribute_jobs E ?arr (_normalize ?fl ?dl _) ncore nchunk ?s1] =>
    destruct (distribute_jobs_normalize E arr fl dl cutoff ncore nchunk s1
                (np.reduced Median (flat_run flats q m)) D) as [ext ->] end;
    cbn [heap SHARED_ARRAY trace]; try done.
  - apply lookup_snoc.
  - by apply lookup_app_l_Some.
  - by rewrite shape_D, shape_reduced.
  - rewrite shape_D. by apply uniform_slice.
  - unfold log. cbn [heap SHARED_ARRAY trace].
    rewrite slice_assign_nat; [|lia|lia|].
    2:{ rewrite length_map, length_slice; [done|lia|lia]. }
    unfold ret. eexists. split; [|split].
    + rewrite slice_nat; [done|lia|lia].
    + cbn. rewrite <- app_assoc, lookup_app_l by (by eapply lookup_lt_Some). done.
    + cbn. by rewrite <- app_assoc.
Qed.

Lemma normalize_nf_loop_ok dark_l l : forall m tend arr s,
  drop m flat_loc = l ->
  heap s !! dark_l = Some D ->
  length arr = length tomo ->
  seg_start m tend = L m ->
  exists out s',
    normalize_nf_loop E tomo flats dark_l flat_loc cutoff ncore nchunk q
      (enumerate_from m l) tend arr s = (Ok out, s') /\
    length out = length tomo /\
    trace s' = trace s ++ nf_events flats q flat_loc total m (length l) /\
    (forall j t, (m <= j < length flat_loc)%nat ->
       (L j <= Z.of_nat t < B j)%Z -> out !! t = nf j <$> tomo !! t) /\
    (forall t, (Z.of_nat t < L m)%Z \/ l = [] -> out !! t = arr !! t).
Proof.
  induction l as [|loc l IH]; intros m tend arr s Hl HD Hlen Hst.
  - exists arr, s. cbn. split_and!; [done|done|by rewrite app_nil_r| |done].
    intros j t Hj. apply drop_nil_inv in Hl. lia.
  - assert (flat_loc !! m = Some loc) as Hm.
    { rewrite <- (Nat.add_0_r m), <- lookup_drop, Hl. done. }
    assert (drop (S m) flat_loc = l) as Hl'.
    { pose proof (drop_S _ _ _ Hm) as Hd. rewrite Hl in Hd. congruence. }
    pose proof (lookup_lt_Some _ _ _ Hm) as Hlt.
    pose proof (seg_lo_bounds _ _ loc_ok m Hlt) as HL.
    pose proof (boundary_le_total _ _ loc_ok m Hlt) as HB.
      destruct (normalize_nf_body_ok dark_l m loc tend arr s Hm HD Hlen Hst)
      as (s1 & Hrun & HD1 & Htr1).
    cbn [enumerate_from normalize_nf_loop]. unfold bind. rewrite Hrun.
    cbv beta iota. cbn [fst snd].
    set (arr1 := take _ arr ++ _ ++ drop _ arr) in *.
    assert (forall t, arr1 !! t =
              if decide (t < Z.to_nat (L m))%nat then arr !! t
              else if decide (t < Z.to_nat (B m))%nat then nf m <$> tomo !! t
              else arr !! t) as Harr1.
    { intros t. subst arr1. apply lookup_splice; [lia| |done]. lia. }
    assert (length arr1 = length tomo) as Hlen1.
    { subst arr1. rewrite !length_app, length_map, !length_take, !length_drop.
      fold total in HB. lia. }
    destruct (IH (S m) (B m) arr1 s1 Hl' HD1 Hlen1 eq_refl)
      as (out & s2 & -> & Hout & Htr2 & Hseg & Hlow).
    exists out, s2. split_and!; [done|done| | |].
    + rewrite Htr2, Htr1, <- app_assoc. done.
    + intros j t Hj Ht. destruct (decide (j = m)) as [->|Hne].
      * rewrite Hlow by (left; cbn; lia).
        rewrite Harr1, decide_False, decide_True by lia. done.
      * apply Hseg; [lia|done].
    + intros t [Ht|?]; [|done].
      rewrite Hlow by (left; cbn; lia).
      rewrite Harr1, decide_True by lia. done.
Qed.

End NearestFlat.

Lemma length_zeros_like v : length (np.zeros_like v) = length v.
Proof. unfold np.zeros_like. by rewrite length_map. Qed.

Lemma normalize_nf_ok E tomo flats dark flat_loc cutoff ncore nchunk sh s :
  valid_flat_loc flat_loc (Z.of_nat (length tomo)) = true ->
  valid_pool E ncore nchunk = true ->
  uniform sh tomo = true ->
  frame_shape flats = sh ->
  frame_shape dark = sh ->
  exists out s',
    normalize_nf E tomo flats dark flat_loc cutoff ncore nchunk s = (Ok out, s') /\
    length out = length tomo /\
    trace s' = trace s ++
      EvReduce Median dark ::
      nf_events flats (num_per_flat flats flat_loc) flat_loc (Z.of_nat (length tomo))
        0 (length flat_loc) /\
    (forall j t, (j < length flat_loc)%nat ->
       (seg_lo flat_loc (Z.of_nat (length tomo)) j <= Z.of_nat t
          < boundary flat_loc (Z.of_nat (length tomo)) j)%Z ->
       out !! t =
         nf_frame cutoff flats dark (num_per_flat flats flat_loc) j <$> tomo !! t).
Proof.
  intros Hv Hp Ht Hfs Hds.
  pose proof (valid_nonempty _ _ Hv) as HF.
  unfold normalize_nf, bind. rewrite reduce_run. cbv beta iota.
  unfold lift, floordiv.
  destruct (Z.eqb_spec (Z.of_nat (length flat_loc)) 0) as [?|_]; [lia|].
  cbv beta iota. unfold enumerate.
  match goal with |- context [normalize_nf_loop _ _ _ ?dl _ _ _ _ _ _ ?tend ?arr ?s1] =>
    destruct (normalize_nf_loop_ok E tomo flats dark flat_loc cutoff ncore nchunk sh
                Hv Hp Ht Hfs Hds dl flat_loc 0%nat tend arr s1)
      as (out & s' & Hrun & Hlen & Htr & Hseg & _) end.
  - done.
  - cbn. apply lookup_snoc.
  - apply length_zeros_like.
  - done.
  - exists out, s'. split; [exact Hrun|]. split; [done|]. split.
    + rewrite Htr. cbn [trace]. by rewrite <- app_assoc.
    + intros j t Hj Hin. apply Hseg; [lia|done].
Qed.

Lemma elem_of_enumerate_from {A} (l : list A) : forall k m x,
  (m, x) ∈ enumerate_from k l -> (k <= m < k + length l)%nat.
Proof.
  induction l as [|y l IH]; intros k m x; cbn.
  - by intros ?%elem_of_nil.
  - intros [?|H]%elem_of_cons; [simplify_eq; lia|]. apply IH in H. lia.
Qed.

Lemma normalize_nf_loop_flats E tomo flats1 flats2 dark flat_loc cutoff ncore nchunk q items :
  (forall m loc, (m, loc) ∈ items -> flat_run flats1 q m = flat_run flats2 q m) ->
  forall tend arr s,
    normalize_nf_loop E tomo flats1 dark flat_loc cutoff ncore nchunk q items tend arr s =
    normalize_nf_loop E tomo flats2 dark flat_loc cutoff ncore nchunk q items tend arr s.
Proof.
  induction items as [|[m loc] items IH]; intros Hruns tend arr s; [done|].
  cbn [normalize_nf_loop]. unfold bind.
  assert (normalize_nf_body E tomo flats1 dark flat_loc cutoff ncore nchunk q m loc tend arr s =
          normalize_nf_body E tomo flats2 dark flat_loc cutoff ncore nchunk q m loc tend arr s) as ->.
  { unfold normalize_nf_body. fold (flat_run flats1 q m) (flat_run flats2 q m).
    rewrite (Hruns m loc) by by left. done. }
  destruct (normalize_nf_body _ _ flats2 _ _ _ _ _ _ _ _ _ _ _) as [[st|e] s1]; [|done].
  apply IH. intros m' loc' H. apply (Hruns m' loc'). by right.
Qed.

(** Frames beyond the last full run are in no run. *)
Lemma flat_run_remainder (flats : stack) (rest : volume) (F : nat) (m : nat) :
  (m < F)%nat -> (length rest < F)%nat ->
  let q := (length (frames flats) / F)%nat in
  flat_run (mkStack (frame_shape flats) (take (F * q) (frames flats) ++ rest))
    (Z.of_nat q) m =
  flat_run flats (Z.of_nat q) m.
Proof.
  intros Hm Hr q.
  assert (F * q <= length (frames flats))%nat as Hq.
  { subst q. apply Nat.Div0.mul_div_le. }
  assert ((m + 1) * q <= F * q)%nat by nia.
  unfold flat_run, stack_slice. cbn [frame_shape frames]. f_equal.
  rewrite !slice_nat;
    rewrite ?length_app, ?length_take; try nia.
  rewrite !Z2Nat.inj_mul, !Z2Nat.inj_add, !Nat2Z.id by lia.
  change (Z.to_nat 1) with 1%nat.
  apply list_eq. intros i.
  destruct (decide (i < (m + 1) * q - m * q)%nat).
  - rewrite !lookup_take_lt, !lookup_drop by done.
    rewrite lookup_app_l by (rewrite length_take; nia).
    rewrite lookup_take_lt; [done|nia].
  - rewrite !lookup_take_ge; [done|lia..].
Qed.

Lemma num_per_flat_remainder (flats rest : volume) (F : nat) :
  (length rest < F)%nat ->
  ((length (take (F * (length flats / F)) flats ++ rest)) / F = length flats / F)%nat.
Proof.
  intros Hr. assert (F * (length flats / F) <= length flats)%nat
    by apply Nat.Div0.mul_div_le.
  rewrite length_app, length_take, Nat.min_l by done.
  rewrite Nat.mul_comm, Nat.div_add_l by lia.
  rewrite (Nat.div_small (length rest)) by done. lia.
Qed.

Lemma normalize_nf_remainder E tomo flats rest dark flat_loc cutoff ncore nchunk s :
  (length rest < length flat_loc)%nat ->
  normalize_nf E tomo
    (mkStack (frame_shape flats)
       (take (length flat_loc * (length (frames flats) / length flat_loc))
             (frames flats) ++ rest))
    dark flat_loc cutoff ncore nchunk s =
  normalize_nf E tomo flats dark flat_loc cutoff ncore nchunk s.
Proof.
  intros Hr. unfold normalize_nf, bind.
  destruct (reduce Median dark s) as [[dl|e] s1]; [|done].
  unfold lift, floordiv. cbn [frames].
  destruct (Z.eqb (Z.of_nat (length flat_loc)) 0); [done|].
  rewrite <- !Nat2Z.inj_div, num_per_flat_remainder by done.
  apply normalize_nf_loop_flats. intros m loc Hm.
  apply elem_of_enumerate_from in Hm.
  apply flat_run_remainder; [lia|done].
Qed.

(** With [num_per_flat = 0] every run is empty. *)
Lemma flat_run_zero flats m : frames (flat_run flats 0 m) = [].
Proof.
  unfold flat_run, stack_slice. cbn [frames].
  rewrite !Z.mul_0_r. unfold slice, slice_index. cbn.
  by rewrite Nat.sub_diag.
Qed.

(** ** Pixels *)

Lemma px_zip_with op a b r c :
  px (zip_with (zip_with op) a b) r c =
    match px a r c, px b r c with
    | Some x, Some y => Some (op x y)
    | _, _ => None
    end.
Proof.
  unfold px. rewrite lookup_zip_with.
  destruct (a !! r) as [ra|]; cbn; [|done].
  destruct (b !! r) as [rb|]; cbn; [|by destruct (ra !! c)].
  rewrite lookup_zip_with.
  destruct (ra !! c); cbn; [|done]. by destruct (rb !! c).
Qed.

Lemma px_masked_fill mask v a r c :
  px (np.masked_fill mask v a) r c =
    (fun x => if mask x then v else x) <$> px a r c.
Proof.
  unfold px, np.masked_fill. rewrite list_lookup_fmap.
  destruct (a !! r) as [ra|]; cbn; [|done]. by rewrite list_lookup_fmap.
Qed.

Lemma px_clip_frame cutoff a r c :
  px (clip_frame cutoff a) r c = clip cutoff <$> px a r c.
Proof.
  destruct cutoff as [k|]; cbn.
  - by rewrite px_masked_fill.
  - by destruct (px a r c).
Qed.

Lemma px_denom_frame F D r c f d :
  px F r c = Some f -> px D r c = Some d ->
  px (denom_frame F D) r c = Some (guard (F32.sub f d)).
Proof.
  intros Hf Hd. unfold denom_frame. rewrite px_masked_fill, px_zip_with, Hf, Hd. done.
Qed.

Lemma px_norm_frame cutoff DEN D P r c p d den :
  px P r c = Some p -> px D r c = Some d -> px DEN r c = Some den ->
  px (norm_frame cutoff DEN D P) r c =
    Some (clip cutoff (F32.div (F32.sub p d) den)).
Proof.
  intros Hp Hd Hden. unfold norm_frame.
  rewrite px_clip_frame, !px_zip_with, Hp, Hd, Hden. done.
Qed.

(** ** float32 facts *)

Lemma guard_nonzero x : F32.is_zero (guard x) = false.
Proof.
  unfold guard. destruct (F32.eqb x F32.zero) eqn:E; [done|].
  destruct x as [[]| | |]; try done.
Qed.

Lemma sub_eq_zero f d :
  F32.eqb f d = true -> F32.is_finite f = true ->
  F32.eqb (F32.sub f d) F32.zero = true.
Proof.
  unfold F32.eqb, F32.sub, SFeqb.
  destruct f as [sf| | |sf mf ef], d as [sd| | |sd md ed]; try done;
    repeat match goal with b : bool |- _ => destruct b end; try done;
    cbn [SFcompare].
  - destruct (Z.compare_spec ef ed) as [->| |]; try done.
    destruct (Pos.compare_cont Eq mf md) eqn:Hc; try done.
    apply Pos.compare_eq in Hc as ->. intros _ _.
    unfold SFsub. rewrite Z.sub_diag. done.
  - destruct (Z.compare_spec ef ed) as [->| |]; try done.
    destruct (Pos.compare_cont Eq mf md) eqn:Hc; try done.
    apply Pos.compare_eq in Hc as ->. intros _ _.
    unfold SFsub. rewrite Z.sub_diag. done.
Qed.

Lemma guard_equal f d :
  F32.eqb f d = true -> F32.is_finite f = true ->
  guard (F32.sub f d) = F32.eps.
Proof. intros He Hf. unfold guard. by rewrite sub_eq_zero. Qed.

Lemma ltb_irrefl c : F32.ltb c c = false.
Proof.
  unfold F32.ltb, SFltb.
  destruct c as [[]|[]| |[] m e]; cbn; try done;
    by rewrite Z.compare_refl, Pos.compare_cont_refl.
Qed.

Lemma clip_idempotent cutoff x : clip cutoff (clip cutoff x) = clip cutoff x.
Proof.
  destruct cutoff as [c|]; cbn; [|done].
  destruct (F32.ltb c x) eqn:E; [|by rewrite E].
  by rewrite ltb_irrefl.
Qed.

(** ** Traces *)

Lemma writes_app tr1 tr2 : writes (tr1 ++ tr2) = writes tr1 ++ writes tr2.
Proof. unfold writes. apply omap_app. Qed.


Lemma writes_nf_events flats q flat_loc total n : forall m,
  writes (nf_events flats q flat_loc total m n) =
    map (fun j => (seg_lo flat_loc total j, boundary flat_loc total j)) (seq m n).
Proof.
  induction n as [|n IH]; intros m; [done|].
  cbn. f_equal. apply IH.
Qed.


Lemma segments_closed_form flat_loc total :
  segments flat_loc total =
    map (fun j => (seg_lo flat_loc total j, boundary flat_loc total j))
        (seq 0 (length flat_loc)).
Proof.
  apply list_eq. intros j. rewrite list_lookup_fmap.
  destruct (decide (j < length flat_loc)) as [Hj|Hj].
  - rewrite segments_lookup, lookup_seq_lt by done. done.
  - rewrite segments_lookup_ge, lookup_seq_ge by lia. done.
Qed.

Lemma clip_above c x : F32.ltb c x = true -> clip (Some c) x = c.
Proof. intros H. cbn. by rewrite H. Qed.

Lemma clip_below c x : F32.ltb c x = false -> clip (Some c) x = x.
Proof. intros H. cbn. by rewrite H. Qed.

Lemma clip_frame_pointwise cutoff a :
  clip_frame cutoff a = map (map (clip cutoff)) a.
Proof.
  destruct cutoff as [c|]; cbn; [done|].
  rewrite <- (map_id a) at 1. apply map_ext. intros row.
  by rewrite <- (map_id row) at 1.
Qed.

Lemma clip_frame_idempotent cutoff a :
  clip_frame cutoff (clip_frame cutoff a) = clip_frame cutoff a.
Proof.
  rewrite !clip_frame_pointwise, map_map. apply map_ext. intros row.
  rewrite map_map. apply map_ext. intros x. apply clip_idempotent.
Qed.

(** Each pixel of a reduced frame is the statistic of that pixel's samples
    along the frame axis. *)
Lemma px_reduced st s r c x :
  px (np.reduced st s) r c = Some x ->
  x = np.stat1 st (np.column (frames s) r c).
Proof.
  unfold px, np.reduced. rewrite list_lookup_imap.
  destruct (frame_shape s !! r) as [n|]; [|done]. cbn.
  rewrite list_lookup_fmap.
  destruct (seq 0 n !! c) as [c'|] eqn:Hc; [|done]. cbn.
  apply lookup_seq in Hc as [-> _]. cbn. congruence.
Qed.

Lemma px_norm_frame_inv cutoff DEN D P r c x :
  px (norm_frame cutoff DEN D P) r c = Some x ->
  exists p d den,
    px P r c = Some p /\ px D r c = Some d /\ px DEN r c = Some den /\
    x = clip cutoff (F32.div (F32.sub p d) den).
Proof.
  unfold norm_frame. rewrite px_clip_frame, !px_zip_with.
  destruct (px P r c) as [p|]; [|done].
  destruct (px D r c) as [d|]; [|done].
  destruct (px DEN r c) as [den|]; [|done].
  cbn. intros [= <-]. by exists p, d, den.
Qed.

Lemma px_denom_frame_inv F D r c den :
  px (denom_frame F D) r c = Some den ->
  exists f d,
    px F r c = Some f /\ px D r c = Some d /\ den = guard (F32.sub f d).
Proof.
  unfold denom_frame. rewrite px_masked_fill, px_zip_with.
  destruct (px F r c) as [f|]; [|done].
  destruct (px D r c) as [d|]; [|done].
  cbn. intros [= <-]. by exists f, d.
Qed.

(** ** NaN *)

Lemma stat1_nil st : np.stat1 st [] = F32.nan.
Proof. by destruct st. Qed.

Lemma guard_sub_nan d : guard (F32.sub F32.nan d) = F32.nan.
Proof. done. Qed.

Lemma div_nan y : F32.div y F32.nan = F32.nan.
Proof. by destruct y. Qed.

Lemma clip_nan cutoff : clip cutoff F32.nan = F32.nan.
Proof. destruct cutoff as [[]|]; by cbn. Qed.

(** A frame normalised with a flat frame of NaN is NaN at every pixel. *)
Lemma px_norm_frame_nan cutoff F D P r c x :
  (forall f, px F r c = Some f -> f = F32.nan) ->
  px (norm_frame cutoff (denom_frame F D) D P) r c = Some x ->
  x = F32.nan.
Proof.
  intros HF (p & d & den & _ & _ & Hden & ->)%px_norm_frame_inv.
  apply px_denom_frame_inv in Hden as (f & d' & Hf & _ & ->).
  rewrite (HF f Hf), guard_sub_nan, div_nan. apply clip_nan.
Qed.

(** * The claims *)

(** ** The kernel *)

(** C9.  A call [_normalize(flat, dark, cutoff, istart, iend)] keeps the
    number of frames of the shared array, writes no frame outside
    [istart <= m < iend], changes no array object that existed before the
    call, in particular neither [flat] nor [dark] (the guarded denominator
    and the corrected frames are new objects), and records nothing in the
    trace.  This holds whether the call returns or raises. *)
Theorem kernel_frame_effect flat dark cutoff istart iend s :
  let s' := snd (_normalize flat dark cutoff istart iend s) in
  length (SHARED_ARRAY s') = length (SHARED_ARRAY s) /\
  (forall m, ~ (istart <= m < iend) -> SHARED_ARRAY s' !! m = SHARED_ARRAY s !! m) /\
  (forall l, l < length (heap s) -> heap s' !! l = heap s !! l) /\
  heap s' !! flat = heap s !! flat /\
  heap s' !! dark = heap s !! dark /\
  trace s' = trace s.
Proof.
  cbn. rewrite _normalize_run.
  destruct (heap s !! flat) as [F|] eqn:HF; [|done].
  destruct (heap s !! dark) as [D|] eqn:HD; [|done].
  destruct (same_shape F D); [|done].
  match goal with |- context [for_each ?l ?b ?s1] =>
    destruct (for_each_frame dark (length (heap s)) cutoff D (denom_frame F D) l s1)
      as ([ext Hh] & Ht & Hl & Hk) end.
  { cbn. by apply lookup_app_l_Some. }
  { cbn. apply lookup_snoc. }
  cbn in *. rewrite Hh, <- app_assoc.
  split_and!; [done| |intros l Hl'; by apply lookup_app_l
              |rewrite <- HF; apply lookup_app_l; by eapply lookup_lt_Some
              |rewrite <- HD; apply lookup_app_l; by eapply lookup_lt_Some|done].
  intros m Hm. apply Hk. by rewrite elem_of_range.
Qed.

(** C4, as the code has it.  At a pixel where the reduced flat equals the
    reduced dark and is finite, the zero denominator is replaced by
    [1e-6] (as a float32) before the division, and the corrected value
    written for a frame of the range is [(projection - dark) / 1e-6] in
    float32 arithmetic, clamped by the cutoff when one is given; and at no
    pixel at all is the guarded denominator zero.  Nothing is said of the
    size of the quotient, which float32 may not hold. *)
Theorem zero_division_guard flat dark cutoff istart iend s F D m r c f d p :
  heap s !! flat = Some F ->
  heap s !! dark = Some D ->
  shape F = shape D ->
  uniform (shape D) (SHARED_ARRAY s) = true ->
  iend <= length (SHARED_ARRAY s) ->
  istart <= m < iend ->
  px F r c = Some f ->
  px D r c = Some d ->
  vx (SHARED_ARRAY s) m r c = Some p ->
  F32.eqb f d = true ->
  F32.is_finite f = true ->
  let s' := snd (_normalize flat dark cutoff istart iend s) in
  px (denom_frame F D) r c = Some F32.eps /\
  vx (SHARED_ARRAY s') m r c =
    Some (clip cutoff (F32.div (F32.sub p d) F32.eps)) /\
  (forall r' c' x, px (denom_frame F D) r' c' = Some x -> F32.is_zero x = false).
Proof.
  intros HF HD Hsh Hu Hlen Hm Hf Hd Hp Heq Hfin.
  destruct (_normalize_ok flat dark cutoff istart iend s F D HF HD Hsh Hu Hlen)
    as [ext Hrun].
  assert (px (denom_frame F D) r c = Some F32.eps) as Hden.
  { rewrite (px_denom_frame F D r c f d Hf Hd). by rewrite guard_equal. }
  cbn zeta. rewrite Hrun. cbn [snd SHARED_ARRAY]. split_and!.
  - done.
  - unfold vx in *. rewrite lookup_kernel_on.
    destruct (SHARED_ARRAY s !! m) as [P|]; [|done]. cbn.
    assert (in_range istart iend m = true) as -> by by apply in_range_spec.
    by apply px_norm_frame.
  - intros r' c' x. unfold denom_frame. rewrite px_masked_fill.
    destruct (px _ r' c') as [y|]; [|done]. cbn. intros [= <-].
    apply guard_nonzero.
Qed.

Lemma zero_division_guard_witness :
  let s := mkState (pixels 2 5) [[[F32.of_Z 7]]; [[F32.of_Z 7]]] [] in
  let s' := snd (_normalize 0 1 None 0 2 s) in
  px (denom_frame [[F32.of_Z 7]] [[F32.of_Z 7]]) 0 0 = Some F32.eps /\
  vx (SHARED_ARRAY s') 1 0 0 =
    Some (clip None (F32.div (F32.sub (F32.of_Z 5) (F32.of_Z 7)) F32.eps)) /\
  (forall r' c' x,
     px (denom_frame [[F32.of_Z 7]] [[F32.of_Z 7]]) r' c' = Some x ->
     F32.is_zero x = false).
Proof.
  apply (zero_division_guard 0 1 None 0 2
           (mkState (pixels 2 5) [[[F32.of_Z 7]]; [[F32.of_Z 7]]] [])
           [[F32.of_Z 7]] [[F32.of_Z 7]] 1 0 0
           (F32.of_Z 7) (F32.of_Z 7) (F32.of_Z 5));
    try reflexivity; simpl; lia.
Defined.

(** C4, the counterexample.  With flat and dark both 0 at the pixel and
    the finite projection value 2^127, the kernel writes
    [(2^127 - 0) / 1e-6], which overflows float32: the corrected value is
    infinite.  And with flat and dark both infinite at the pixel, which
    compare equal, the denominator is NaN, is not replaced, and the
    corrected value is NaN. *)
Lemma zero_division_overflow :
  let inf := S754_infinity false in
  let s := mkState [[[two_pow_127]]] [[[F32.zero]]; [[F32.zero]]] [] in
  let s' := snd (_normalize 0 1 None 0 1 s) in
  let t := mkState (pixels 1 5) [[[inf]]; [[inf]]] [] in
  let t' := snd (_normalize 0 1 None 0 1 t) in
  (px [[F32.zero]] 0 0 = Some F32.zero /\
   F32.eqb F32.zero F32.zero = true /\
   F32.is_finite two_pow_127 = true /\
   vx (SHARED_ARRAY s') 0 0 0 = Some inf /\
   F32.is_finite inf = false) /\
  (F32.eqb inf inf = true /\
   px (denom_frame [[inf]] [[inf]]) 0 0 = Some F32.nan /\
   vx (SHARED_ARRAY t') 0 0 0 = Some F32.nan).
Proof. vm_compute. repeat split. Qed.

(** C8, as the code has it.  The clamp is idempotent, on a pixel and on a
    frame: a value above the cutoff becomes the cutoff, every other value,
    negative or not, is left as it is, and a frame the kernel has
    corrected is not changed by clamping it again. *)
Theorem clamp_idempotent cutoff :
  (forall x, clip cutoff (clip cutoff x) = clip cutoff x) /\
  (forall c x, F32.ltb c x = true -> clip (Some c) x = c) /\
  (forall c x, F32.ltb c x = false -> clip (Some c) x = x) /\
  (forall a, clip_frame cutoff (clip_frame cutoff a) = clip_frame cutoff a) /\
  (forall DEN D P,
     clip_frame cutoff (norm_frame cutoff DEN D P) = norm_frame cutoff DEN D P).
Proof.
  split_and!.
  - apply clip_idempotent.
  - apply clip_above.
  - apply clip_below.
  - apply clip_frame_idempotent.
  - intros DEN D P. unfold norm_frame. apply clip_frame_idempotent.
Qed.

(** C8, the counterexample.  With the projection value 5, flat 10, dark 0
    and cutoff 1, one run of the kernel leaves 0.5 in the shared array and
    a second run with the same arguments leaves 0.05. *)
Lemma kernel_twice_differs :
  let s := mkState (pixels 1 5) [[[F32.of_Z 10]]; [[F32.of_Z 0]]] [] in
  let once := snd (_normalize 0 1 (Some (F32.of_Z 1)) 0 1 s) in
  let twice := snd (_normalize 0 1 (Some (F32.of_Z 1)) 0 1 once) in
  SHARED_ARRAY once = [[[S754_finite false 8388608 (-24)]]] /\
  SHARED_ARRAY twice <> SHARED_ARRAY once.
Proof. vm_compute. split; [reflexivity|discriminate]. Qed.

(** ** The dispatch *)

(** C5.  For well-shaped inputs and every pool, worker count and chunk
    size (a single chunk, chunks of one frame, a chunk size that does not
    divide the frame count, ...), in whatever order the chunks are run,
    [normalize] returns, and returns exactly what the kernel run once over
    all the frames in ascending order returns. *)
Theorem normalize_chunk_partition_equivalence
    E tomo flat dark cutoff ncore nchunk sh s :
  valid_pool E ncore nchunk = true ->
  uniform sh tomo = true ->
  frame_shape flat = sh ->
  frame_shape dark = sh ->
  fst (normalize E tomo flat dark cutoff ncore nchunk s) =
    fst (normalize_sequential tomo flat dark cutoff s) /\
  is_ok (fst (normalize E tomo flat dark cutoff ncore nchunk s)) = true.
Proof.
  intros Hp Ht Hfs Hds.
  destruct (normalize_ok E tomo flat dark cutoff ncore nchunk sh
              Hp Ht Hfs Hds s) as [e1 ->].
  destruct (normalize_sequential_ok tomo flat dark cutoff sh
              Ht Hfs Hds s) as [e2 ->].
  done.
Qed.

Lemma normalize_chunk_partition_equivalence_witness :
  fst (normalize reversing_pool (pixels 5 5)
         (pixel_stack (pixels 2 10)) (pixel_stack (pixels 3 0))
         None None (Some 2) empty_state) =
    fst (normalize_sequential (pixels 5 5)
           (pixel_stack (pixels 2 10)) (pixel_stack (pixels 3 0))
           None empty_state) /\
  is_ok (fst (normalize reversing_pool (pixels 5 5)
                (pixel_stack (pixels 2 10)) (pixel_stack (pixels 3 0))
                None None (Some 2) empty_state)) = true.
Proof.
  apply (normalize_chunk_partition_equivalence reversing_pool
           (pixels 5 5) (pixel_stack (pixels 2 10)) (pixel_stack (pixels 3 0))
           None None (Some 2) [1] empty_state);
    reflexivity.
Defined.

(** The end-to-end example of the spec (section 8): a tomogram of shape
    (2,2,2) filled with 5, a flat filled with 10 and a dark filled with 0,
    without cutoff, give 0.5 everywhere. *)
Example normalize_end_to_end :
  let fill x := [[F32.of_Z x; F32.of_Z x]; [F32.of_Z x; F32.of_Z x]] in
  let half := S754_finite false 8388608 (-24) in
  fst (normalize reversing_pool [fill 5%Z; fill 5%Z]
         (mkStack [2; 2] [fill 10%Z]) (mkStack [2; 2] [fill 0%Z])
         None None None empty_state) =
    Ok [[[half; half]; [half; half]]; [[half; half]; [half; half]]].
Proof. reflexivity. Qed.

(** ** The reductions *)



(** ** The segments *)

Local Open Scope Z_scope.

(** C3.  For a strictly increasing flat-location index of length at least
    one with values in [[0, total)], the loop of [normalize_nf] goes
    through one segment per location; the segments are half-open ranges
    within [[0, total)], the first starts at 0, each next one starts where
    the previous one ends, the last ends at [total]; every frame index
    lies in one segment and in one only; and on well-formed arrays the
    slice assignments into the output volume are exactly these segments,
    in order, the call returns a volume of the length of the tomogram,
    and every frame [t] of it, [t] being in segment [m], holds the
    tomogram frame [t] normalised with the flat of segment [m]: the
    value written by the one assignment that covers [t]. *)
Theorem segments_partition flat_loc total :
  valid_flat_loc flat_loc total = true ->
  let segs := segments flat_loc total in
  length segs = length flat_loc /\
  fst <$> head segs = Some 0 /\
  snd <$> last segs = Some total /\
  (forall m a b, segs !! m = Some (a, b) -> 0 <= a <= b /\ b <= total) /\
  (forall m a b a' b',
     segs !! m = Some (a, b) -> segs !! S m = Some (a', b') -> a' = b) /\
  (forall t, 0 <= t < total ->
     exists m a b, segs !! m = Some (a, b) /\ a <= t < b) /\
  (forall t m a b m' a' b',
     segs !! m = Some (a, b) -> segs !! m' = Some (a', b') ->
     a <= t < b -> a' <= t < b' -> m = m') /\
  (forall E tomo flats dark cutoff ncore nchunk sh s,
     total = Z.of_nat (length tomo) ->
     valid_pool E ncore nchunk = true ->
     uniform sh tomo = true ->
     frame_shape flats = sh ->
     frame_shape dark = sh ->
     let run := normalize_nf E tomo flats dark flat_loc cutoff ncore nchunk s in
     writes (trace (snd run)) = writes (trace s) ++ segs /\
     length <$> (match fst run with Ok out => Some out | Raise _ => None end)
       = Some (length tomo) /\
     exists out, fst run = Ok out /\
       forall m a b t,
         segs !! m = Some (a, b) -> a <= Z.of_nat t < b ->
         out !! t =
           nf_frame cutoff flats dark (num_per_flat flats flat_loc) m
             <$> tomo !! t).
Proof.
  intros Hv. cbn zeta.
  pose proof (valid_nonempty _ _ Hv) as HF.
  split_and!.
  - apply length_segments.
  - rewrite head_lookup, segments_lookup by done. done.
  - rewrite last_lookup, length_segments, segments_lookup by lia. cbn.
    f_equal. apply boundary_last. lia.
  - intros m a b (Hm & -> & ->)%segments_lookup_Some.
    pose proof (seg_lo_bounds _ _ Hv m Hm).
    pose proof (boundary_le_total _ _ Hv m Hm). lia.
  - intros m a b a' b' (Hm & -> & ->)%segments_lookup_Some
      (Hm' & -> & ->)%segments_lookup_Some. done.
  - intros t Ht. destruct (segments_cover _ _ Hv t Ht) as (m & Hm & Hin).
    exists m, (seg_lo flat_loc total m), (boundary flat_loc total m).
    split; [by apply segments_lookup|done].
  - intros t m a b m' a' b' (Hm & -> & ->)%segments_lookup_Some
      (Hm' & -> & ->)%segments_lookup_Some Ht Ht'.
    by eapply (segments_disjoint _ _ Hv t).
  - intros E tomo flats dark cutoff ncore nchunk sh s -> Hp Ht Hfs Hds.
    destruct (normalize_nf_ok E tomo flats dark flat_loc cutoff ncore nchunk sh s
                Hv Hp Ht Hfs Hds) as (out & s' & Hnf & Hlen & Htr & Hval).
    cbn zeta. rewrite Hnf. cbn [fst snd]. split_and!.
    + rewrite Htr, writes_app. f_equal. cbn.
      by rewrite writes_nf_events, segments_closed_form.
    + by rewrite <- Hlen.
    + exists out. split; [done|].
      intros m a b t (Hm & -> & ->)%segments_lookup_Some Hin.
      by apply Hval.
Qed.

Lemma segments_partition_witness :
  let segs := segments [0; 10; 25] 30 in
  let flats := pixel_stack (pixels 1 2 ++ pixels 1 4 ++ pixels 1 8) in
  let dark := pixel_stack (pixels 1 0) in
  let run := normalize_nf reversing_pool (pixels 30 8) flats dark
               [0; 10; 25] None None (Some 4%nat) empty_state in
  length segs = 3%nat /\
  fst <$> head segs = Some 0 /\
  snd <$> last segs = Some 30 /\
  (forall t, 0 <= t < 30 -> exists m a b, segs !! m = Some (a, b) /\ a <= t < b) /\
  writes (trace (snd run)) = writes (trace empty_state) ++ segs /\
  exists out, fst run = Ok out /\
    forall m a b t,
      segs !! m = Some (a, b) -> a <= Z.of_nat t < b ->
      out !! t =
        nf_frame None flats dark (num_per_flat flats [0; 10; 25]) m
          <$> pixels 30 8 !! t.
Proof.
  pose proof (segments_partition [0; 10; 25] 30 eq_refl) as H.
  cbv zeta in H. destruct H as (H1 & H2 & H3 & _ & _ & H6 & _ & H8).
  destruct (H8 reversing_pool (pixels 30 8)
              (pixel_stack (pixels 1 2 ++ pixels 1 4 ++ pixels 1 8))
              (pixel_stack (pixels 1 0)) None None (Some 4%nat) [1%nat]
              empty_state eq_refl eq_refl eq_refl eq_refl eq_refl)
    as (H9 & _ & H10).
  exact (conj H1 (conj H2 (conj H3 (conj H6 (conj H9 H10))))).
Defined.

(** C2, as the code has it.  For a valid flat-location index, segment [m]
    is the half-open range whose exclusive end is
    [loc + (flat_loc[m+1] - loc - 1) // 2], or [total] for the last
    location; every frame of segment [m] is strictly closer to location
    [m] than to any later location; and a frame equally far from two
    successive locations is in the segment of the later one. *)
Theorem segment_end_formula flat_loc total :
  valid_flat_loc flat_loc total = true ->
  let segs := segments flat_loc total in
  (forall m a b loc nxt,
     segs !! m = Some (a, b) ->
     flat_loc !! m = Some loc -> flat_loc !! S m = Some nxt ->
     b = loc + (nxt - loc - 1) / 2) /\
  (forall m a b,
     segs !! m = Some (a, b) -> S m = length flat_loc -> b = total) /\
  (forall m a b t loc k lock,
     segs !! m = Some (a, b) -> a <= t < b ->
     flat_loc !! m = Some loc ->
     (m < k)%nat -> flat_loc !! k = Some lock ->
     Z.abs (t - loc) < Z.abs (t - lock)) /\
  (forall m a b t loc nxt,
     segs !! S m = Some (a, b) ->
     flat_loc !! m = Some loc -> flat_loc !! S m = Some nxt ->
     t - loc = nxt - t ->
     a <= t < b).
Proof.
  intros Hv. cbn zeta. split_and!.
  - intros m a b loc nxt (Hm & -> & ->)%segments_lookup_Some Hloc Hnxt.
    unfold boundary. rewrite Hloc, Hnxt. lia.
  - intros m a b (Hm & -> & ->)%segments_lookup_Some Hlast.
    by apply boundary_last.
  - intros m a b t loc k lock (Hm & -> & ->)%segments_lookup_Some Ht Hloc Hk Hlock.
    pose proof (valid_increasing _ _ Hv) as Hinc.
    destruct (lookup_lt_is_Some_2 flat_loc (S m)) as [nxt Hnxt].
    { apply lookup_lt_Some in Hlock. lia. }
    pose proof (strictly_increasing_succ _ _ _ _ Hinc Hloc Hnxt).
    assert (nxt <= lock).
    { destruct (decide (k = S m)) as [->|]; [by simplify_eq|].
      pose proof (strictly_increasing_lt flat_loc (S m) k nxt lock Hinc
                    ltac:(lia) Hnxt Hlock). lia. }
    unfold boundary in Ht. rewrite Hloc, Hnxt in Ht.
    pose proof (Z.mul_div_le (nxt - loc - 1) 2 ltac:(lia)). lia.
  - intros m a b t loc nxt (Hm & -> & ->)%segments_lookup_Some Hloc Hnxt Htie.
    pose proof (boundary_bounds _ _ Hv (S m) nxt Hnxt).
    pose proof (strictly_increasing_succ _ _ _ _ (valid_increasing _ _ Hv) Hloc Hnxt).
    cbn [seg_lo]. unfold boundary at 1. rewrite Hloc, Hnxt.
    replace (nxt - loc - 1) with ((t - loc - 1) * 2 + 1) by lia.
    rewrite Z.div_add_l by lia. change (1 / 2) with 0. lia.
Qed.

Lemma segment_end_formula_witness :
  valid_flat_loc [0; 10; 25] 30 = true /\
  segments [0; 10; 25] 30 !! 0%nat = Some (0, 4) /\
  Z.abs (3 - 0) < Z.abs (3 - 10).
Proof.
  split; [reflexivity|]. split; [reflexivity|].
  apply (proj1 (proj2 (proj2 (segment_end_formula [0; 10; 25] 30 eq_refl)))
           0%nat 0 4 3 0 1%nat 10);
    try reflexivity; lia.
Defined.

(** C2, the counterexample.  With flat locations 0 and 10 in a tomogram of
    30 frames, frame 4 lies in the segment of the flat taken at frame 10,
    although the flat taken at frame 0 is closer to it. *)
Lemma nearest_flat_fails :
  ~ (forall m a b t loc k lock,
       segments [0; 10] 30 !! m = Some (a, b) -> a <= t < b ->
       [0; 10] !! m = Some loc -> [0; 10] !! k = Some lock ->
       Z.abs (t - loc) <= Z.abs (t - lock)).
Proof.
  intros H.
  specialize (H 1%nat 4 30 4 10 0%nat 0 eq_refl ltac:(lia) eq_refl eq_refl).
  lia.
Qed.

(** C1, the code evaluated.  With flat locations 0, 10 and 25 in a
    tomogram of 30 frames the segments are [[0,4)], [[4,17)] and
    [[17,30)].  On frames of value 8 with flat runs of value 2, 4 and 8
    and a dark of 0, frame 3 is normalised with the first flat (8/2),
    frames 4 and 16 with the second (8/4), frame 17 with the third. *)
Theorem segments_example_0_10_25 :
  let run := normalize_nf reversing_pool (pixels 30 8)
               (pixel_stack (pixels 1 2 ++ pixels 1 4 ++ pixels 1 8))
               (pixel_stack (pixels 1 0))
               [0; 10; 25] None None None empty_state in
  segments [0; 10; 25] 30 = [(0, 4); (4, 17); (17, 30)] /\
  writes (trace (snd run)) = [(0, 4); (4, 17); (17, 30)] /\
  match fst run with
  | Ok out =>
      out !! 3%nat = Some [[F32.of_Z 4]] /\
      out !! 4%nat = Some [[F32.of_Z 2]] /\
      out !! 16%nat = Some [[F32.of_Z 2]] /\
      out !! 17%nat = Some [[F32.of_Z 1]]
  | Raise _ => False
  end.
Proof. vm_compute. repeat split. Qed.

Local Close Scope Z_scope.

(** ** The flat runs *)

Lemma flat_run_take_drop (tomo : volume) flats flat_loc m :
  valid_flat_loc flat_loc (Z.of_nat (length tomo)) = true ->
  m < length flat_loc ->
  let q := num_per_flat flats flat_loc in
  frames (flat_run flats q m) =
    take (Z.to_nat q) (drop (m * Z.to_nat q) (frames flats)).
Proof.
  intros Hv Hm q.
  destruct (flat_run_bounds tomo flats flat_loc Hv m Hm) as [H1 H2].
  pose proof (num_per_flat_nonneg tomo flats flat_loc Hv).
  unfold flat_run, stack_slice. cbn [frames]. rewrite slice_nat by done.
  rewrite !Z2Nat.inj_mul, Z2Nat.inj_add, Nat2Z.id by lia.
  f_equal. change (Z.to_nat 1) with 1. lia.
Qed.

(** C7.  On well-formed inputs with [F] flat locations and
    [q = total_flats // F], run [m] of the flat stack is
    [flats[m*q : (m+1)*q]], the [q] frames that follow the first [m*q];
    every frame of segment [m] is normalised with the median of run [m],
    taken pixel by pixel (and the median of the dark stack); and the
    frames beyond the last full run may be dropped or replaced without
    any change to what [normalize_nf] returns or leaves behind. *)
Theorem flat_runs E tomo flats dark flat_loc cutoff ncore nchunk sh s :
  valid_flat_loc flat_loc (Z.of_nat (length tomo)) = true ->
  valid_pool E ncore nchunk = true ->
  uniform sh tomo = true ->
  frame_shape flats = sh ->
  frame_shape dark = sh ->
  let q := num_per_flat flats flat_loc in
  let D := np.reduced Median dark in
  let run := normalize_nf E tomo flats dark flat_loc cutoff ncore nchunk s in
  q = Z.of_nat (length (frames flats) / length flat_loc) /\
  (forall m, m < length flat_loc ->
     frames (flat_run flats q m) =
       take (Z.to_nat q) (drop (m * Z.to_nat q) (frames flats)) /\
     length (frames (flat_run flats q m)) = Z.to_nat q) /\
  (forall m r c x,
     px (np.reduced Median (flat_run flats q m)) r c = Some x ->
     x = np.median1 (np.column (frames (flat_run flats q m)) r c)) /\
  (exists out, fst run = Ok out /\
     forall m a b t,
       segments flat_loc (Z.of_nat (length tomo)) !! m = Some (a, b) ->
       (a <= Z.of_nat t < b)%Z ->
       out !! t =
         norm_frame cutoff
           (denom_frame (np.reduced Median (flat_run flats q m)) D) D
           <$> tomo !! t) /\
  (forall rest, length rest < length flat_loc ->
     normalize_nf E tomo
       (mkStack (frame_shape flats)
          (take (length flat_loc * (length (frames flats) / length flat_loc))
                (frames flats) ++ rest))
       dark flat_loc cutoff ncore nchunk s = run).
Proof.
  intros Hv Hp Ht Hfs Hds. cbn zeta. split_and!.
  - unfold num_per_flat. by rewrite Nat2Z.inj_div.
  - intros m Hm. split.
    + by eapply flat_run_take_drop.
    + by eapply length_flat_run.
  - intros m. apply (px_reduced Median).
  - destruct (normalize_nf_ok E tomo flats dark flat_loc cutoff ncore nchunk sh s
                Hv Hp Ht Hfs Hds) as (out & s' & Hnf & _ & _ & Hseg).
    exists out. rewrite Hnf. split; [done|].
    intros m a b t (Hm & -> & ->)%segments_lookup_Some Hin.
    by apply Hseg.
  - intros rest Hr. by apply normalize_nf_remainder.
Qed.

Lemma flat_runs_witness :
  let flats := pixel_stack (pixels 2 2 ++ pixels 2 4 ++ pixels 1 9) in
  let run := normalize_nf reversing_pool (pixels 6 8) flats
               (pixel_stack (pixels 1 0))
               [0; 3]%Z None None (Some 2) empty_state in
  num_per_flat flats [0; 3]%Z = 2%Z /\
  fst run = Ok (pixels 1 4 ++ pixels 5 2) /\
  normalize_nf reversing_pool (pixels 6 8)
    (pixel_stack (pixels 2 2 ++ pixels 2 4))
    (pixel_stack (pixels 1 0)) [0; 3]%Z None None (Some 2) empty_state = run.
Proof.
  pose proof (flat_runs reversing_pool (pixels 6 8)
                (pixel_stack (pixels 2 2 ++ pixels 2 4 ++ pixels 1 9))
                (pixel_stack (pixels 1 0))
                [0; 3]%Z None None (Some 2) [1] empty_state
                eq_refl eq_refl eq_refl eq_refl eq_refl)
    as (H1 & _ & _ & _ & H4).
  split; [exact H1|]. split; [reflexivity|].
  exact (H4 [] ltac:(simpl; lia)).
Defined.

(** C10, as the code has it.  When there are fewer flat frames than flat
    locations, [total_flats // num_flats] is 0 and every run
    [flats[fstart:fend]] is empty; the median of an empty run is NaN at
    every pixel, and on otherwise well-formed inputs [normalize_nf] still
    returns a volume of the length of the tomogram, every sample of which
    is NaN. *)
Theorem normalize_nf_too_few_flats
    E tomo flats dark flat_loc cutoff ncore nchunk sh s :
  valid_flat_loc flat_loc (Z.of_nat (length tomo)) = true ->
  valid_pool E ncore nchunk = true ->
  uniform sh tomo = true ->
  frame_shape flats = sh ->
  frame_shape dark = sh ->
  length (frames flats) < length flat_loc ->
  let q := num_per_flat flats flat_loc in
  let run := normalize_nf E tomo flats dark flat_loc cutoff ncore nchunk s in
  q = 0%Z /\
  (forall m, frames (flat_run flats q m) = []) /\
  (forall m r c x,
     px (np.reduced Median (flat_run flats q m)) r c = Some x -> x = F32.nan) /\
  (exists out, fst run = Ok out /\
     length out = length tomo /\
     forall t r c x, vx out t r c = Some x -> x = F32.nan).
Proof.
  intros Hv Hp Ht Hfs Hds Hlt. cbn zeta.
  assert (num_per_flat flats flat_loc = 0%Z) as Hq.
  { unfold num_per_flat. apply Z.div_small. lia. }
  assert (forall m r c x,
            px (np.reduced Median (flat_run flats 0 m)) r c = Some x ->
            x = F32.nan) as Hnan.
  { intros m r c x Hx. apply px_reduced in Hx.
    by rewrite flat_run_zero, stat1_nil in Hx. }
  destruct (normalize_nf_ok E tomo flats dark flat_loc cutoff ncore nchunk sh s
              Hv Hp Ht Hfs Hds) as (out & s' & Hnf & Hlen & _ & Hseg).
  rewrite Hq in *. split_and!; [done|apply flat_run_zero|done|].
  exists out. rewrite Hnf. split_and!; [done|done|].
  intros t r c x Hx. unfold vx in Hx.
  destruct (out !! t) as [fr|] eqn:Hfr; [|done].
  pose proof (lookup_lt_Some _ _ _ Hfr) as Hlt'. rewrite Hlen in Hlt'.
  destruct (segments_cover _ _ Hv (Z.of_nat t) ltac:(lia)) as (m & Hm & Hin).
  rewrite (Hseg m t Hm Hin) in Hfr.
  destruct (tomo !! t) as [P|]; [|done]. cbn in Hfr. simplify_eq.
  unfold nf_frame in Hx. eapply px_norm_frame_nan; [|exact Hx].
  apply Hnan.
Qed.

Lemma normalize_nf_too_few_flats_witness :
  let flats := pixel_stack (pixels 2 3) in
  let run := normalize_nf reversing_pool (pixels 30 8) flats
               (pixel_stack (pixels 1 0))
               [0; 10; 25]%Z None None None empty_state in
  num_per_flat flats [0; 10; 25]%Z = 0%Z /\
  (exists out, fst run = Ok out /\
     length out = length (pixels 30 8) /\
     forall t r c x, vx out t r c = Some x -> x = F32.nan).
Proof.
  pose proof (normalize_nf_too_few_flats reversing_pool (pixels 30 8)
                (pixel_stack (pixels 2 3)) (pixel_stack (pixels 1 0))
                [0; 10; 25]%Z None None None [1] empty_state
                eq_refl eq_refl eq_refl eq_refl eq_refl ltac:(simpl; lia))
    as (H1 & _ & _ & H4).
  exact (conj H1 H4).
Defined.

(** C10, the counterexample.  With two flat frames for the three flat
    locations 0, 10 and 25 the call does not fail: it returns a volume of
    30 frames, each of them NaN. *)
Lemma too_few_flats_returns :
  let run := normalize_nf reversing_pool (pixels 30 8)
               (pixel_stack (pixels 2 3)) (pixel_stack (pixels 1 0))
               [0; 10; 25]%Z None None None empty_state in
  valid_flat_loc [0; 10; 25]%Z 30 = true /\
  is_ok (fst run) = true /\
  fst run = Ok (replicate 30 [[F32.nan]]).
Proof. vm_compute. repeat split. Qed.

(** * Further properties of the code *)

(** ** The kernel *)

(** X1.  What the kernel computes: for a frame [m] of the range and
    every pixel, the sample written is
    [(tomo[m,r,c] - dark[r,c]) / denom[r,c]] in float32 arithmetic, where
    [denom[r,c]] is [flat[r,c] - dark[r,c]], or [1e-6] when that is zero,
    clamped from above by the cutoff when one is given. *)
Theorem kernel_pixel_formula flat dark cutoff istart iend s F D m r c p f d :
  heap s !! flat = Some F ->
  heap s !! dark = Some D ->
  shape F = shape D ->
  uniform (shape D) (SHARED_ARRAY s) = true ->
  iend <= length (SHARED_ARRAY s) ->
  istart <= m < iend ->
  vx (SHARED_ARRAY s) m r c = Some p ->
  px F r c = Some f ->
  px D r c = Some d ->
  let s' := snd (_normalize flat dark cutoff istart iend s) in
  vx (SHARED_ARRAY s') m r c =
    Some (clip cutoff (F32.div (F32.sub p d) (guard (F32.sub f d)))).
Proof.
  intros HF HD Hsh Hu Hlen Hm Hp Hf Hd.
  destruct (_normalize_ok flat dark cutoff istart iend s F D HF HD Hsh Hu Hlen)
    as [ext Hrun].
  cbn zeta. rewrite Hrun. cbn [snd SHARED_ARRAY].
  unfold vx in *. rewrite lookup_kernel_on.
  destruct (SHARED_ARRAY s !! m) as [P|]; [|done]. cbn.
  assert (in_range istart iend m = true) as -> by by apply in_range_spec.
  apply px_norm_frame; [done..|]. by apply px_denom_frame.
Qed.

Lemma kernel_pixel_formula_witness :
  let s := mkState (pixels 2 5) [[[F32.of_Z 10]]; [[F32.of_Z 3]]] [] in
  let s' := snd (_normalize 0 1 None 0 2 s) in
  vx (SHARED_ARRAY s') 1 0 0 =
    Some (clip None (F32.div (F32.sub (F32.of_Z 5) (F32.of_Z 3))
                             (guard (F32.sub (F32.of_Z 10) (F32.of_Z 3))))).
Proof.
  apply (kernel_pixel_formula 0 1 None 0 2
           (mkState (pixels 2 5) [[[F32.of_Z 10]]; [[F32.of_Z 3]]] [])
           [[F32.of_Z 10]] [[F32.of_Z 3]] 1 0 0
           (F32.of_Z 5) (F32.of_Z 10) (F32.of_Z 3));
    try reflexivity; simpl; lia.
Defined.

Lemma for_each_ext {A} (f g : A -> M unit) l :
  (forall x s, f x s = g x s) -> forall s, for_each l f s = for_each l g s.
Proof.
  intros Hfg. induction l as [|x l IH]; intros s; cbn; [done|].
  unfold bind. rewrite Hfg. destruct (g x s) as [[[]|e] s']; [apply IH|done].
Qed.

Lemma for_each_app {A} (f : A -> M unit) l1 l2 s :
  for_each (l1 ++ l2) f s =
    match for_each l1 f s with
    | (Ok _, s') => for_each l2 f s'
    | (Raise e, s') => (Raise e, s')
    end.
Proof.
  revert s. induction l1 as [|x l1 IH]; intros s; cbn; [done|].
  unfold bind. destruct (f x s) as [[[]|e] s']; [apply IH|done].
Qed.

Lemma masked_fill_never mask v a :
  (forall x, mask x = false) -> np.masked_fill mask v a = a.
Proof.
  intros H. unfold np.masked_fill.
  rewrite <- (map_id a) at 2. apply map_ext. intros row.
  rewrite <- (map_id row) at 2. apply map_ext. intros x. by rewrite H.
Qed.

Lemma _normalize_frame_no_clamp dark denom c m s :
  (forall x, F32.ltb c x = false) ->
  _normalize_frame dark denom (Some c) m s = _normalize_frame dark denom None m s.
Proof.
  intros Hc.
  unfold _normalize_frame, bind, shared_get, load, lift.
  destruct (SHARED_ARRAY s !! m) as [P|]; [|done].
  destruct (heap s !! dark) as [D|]; [|done].
  destruct (np.subtract P D) as [num|]; [|done].
  destruct (heap s !! denom) as [DEN|]; [|done].
  destruct (np.true_divide num DEN) as [q|]; [|done].
  cbn. unfold load, store, shared_set, ret. cbn.
  rewrite !lookup_snoc. cbn. rewrite insert_snoc, lookup_snoc.
  by rewrite masked_fill_never.
Qed.

Lemma _normalize_no_clamp flat dark c istart iend s :
  (forall x, F32.ltb c x = false) ->
  _normalize flat dark (Some c) istart iend s =
    _normalize flat dark None istart iend s.
Proof.
  intros Hc. rewrite !_normalize_run.
  destruct (heap s !! flat) as [F|]; [|done].
  destruct (heap s !! dark) as [D|]; [|done].
  destruct (same_shape F D); [|done].
  apply for_each_ext. intros m s'. by apply _normalize_frame_no_clamp.
Qed.

Lemma ltb_nan x : F32.ltb F32.nan x = false.
Proof. done. Qed.

Lemma ltb_inf x : F32.ltb (S754_infinity false) x = false.
Proof. by destruct x as [|[]| |]. Qed.

(** X2.  A cutoff of NaN or of plus infinity never clamps: the kernel
    returns the same result and leaves the same state, array objects
    included, as without a cutoff, on every state. *)
Theorem cutoff_nan_or_inf_never_clamps flat dark istart iend s :
  _normalize flat dark (Some F32.nan) istart iend s =
    _normalize flat dark None istart iend s /\
  _normalize flat dark (Some (S754_infinity false)) istart iend s =
    _normalize flat dark None istart iend s.
Proof.
  split; apply _normalize_no_clamp; [apply ltb_nan|apply ltb_inf].
Qed.

Lemma SFcompare_antisym x y :
  SFcompare y x = option_map CompOpp (SFcompare x y).
Proof.
  destruct x as [sx|sx| |sx mx ex], y as [sy|sy| |sy my ey]; cbn;
    repeat match goal with b : bool |- _ => destruct b end; cbn; try done.
  all: rewrite (Z.compare_antisym ex ey); destruct (ex ?= ey)%Z; cbn; try done;
    f_equal; pose proof (Pos.compare_cont_antisym mx my Eq) as H; cbn in H;
    change PosDef.Pos.compare_cont with Pos.compare_cont; rewrite <- H;
    by destruct (Pos.compare_cont Eq mx my).
Qed.

Lemma ltb_false_leb c x :
  F32.ltb c x = false -> np.isnan c = false ->
  np.isnan x = true \/ F32.leb x c = true.
Proof.
  intros H Hc. destruct (np.isnan x) eqn:Hx; [by left|right].
  revert H. unfold F32.ltb, F32.leb, SFltb, SFleb.
  rewrite (SFcompare_antisym c x).
  assert (exists o, SFcompare c x = Some o) as [o ->].
  { destruct c, x; cbn in *; try done; eauto. }
  by destruct o.
Qed.

Lemma clip_not_above c y : F32.ltb c (clip (Some c) y) = false.
Proof.
  cbn. destruct (F32.ltb c y) eqn:H; [apply ltb_irrefl|done].
Qed.

(** X3.  After a run of the kernel with a cutoff, no sample of a frame
    of the range is above the cutoff: for a cutoff that is not NaN each
    such sample is NaN or at most the cutoff. *)
Theorem kernel_cutoff_bound flat dark c istart iend s F D m r col x :
  heap s !! flat = Some F ->
  heap s !! dark = Some D ->
  shape F = shape D ->
  uniform (shape D) (SHARED_ARRAY s) = true ->
  iend <= length (SHARED_ARRAY s) ->
  istart <= m < iend ->
  let s' := snd (_normalize flat dark (Some c) istart iend s) in
  vx (SHARED_ARRAY s') m r col = Some x ->
  F32.ltb c x = false /\
  (np.isnan c = false -> np.isnan x = true \/ F32.leb x c = true).
Proof.
  intros HF HD Hsh Hu Hlen Hm.
  destruct (_normalize_ok flat dark (Some c) istart iend s F D HF HD Hsh Hu Hlen)
    as [ext Hrun].
  cbn zeta. rewrite Hrun. cbn [snd SHARED_ARRAY].
  unfold vx. rewrite lookup_kernel_on.
  destruct (SHARED_ARRAY s !! m) as [P|]; [|done]. cbn.
  assert (in_range istart iend m = true) as -> by by apply in_range_spec.
  intros (p & d & den & _ & _ & _ & ->)%px_norm_frame_inv.
  pose proof (clip_not_above c (F32.div (F32.sub p d) den)) as Hb.
  split; [done|]. intros Hc. by apply ltb_false_leb.
Qed.

Lemma kernel_cutoff_bound_witness :
  let s := mkState (pixels 2 5) [[[F32.of_Z 2]]; [[F32.of_Z 0]]] [] in
  let s' := snd (_normalize 0 1 (Some (F32.of_Z 1)) 0 2 s) in
  vx (SHARED_ARRAY s') 1 0 0 = Some (F32.of_Z 1) /\
  F32.ltb (F32.of_Z 1) (F32.of_Z 1) = false.
Proof.
  split; [reflexivity|].
  apply (kernel_cutoff_bound 0 1 (F32.of_Z 1) 0 2
           (mkState (pixels 2 5) [[[F32.of_Z 2]]; [[F32.of_Z 0]]] [])
           [[F32.of_Z 2]] [[F32.of_Z 0]] 1 0 0 (F32.of_Z 1));
    try reflexivity; simpl; lia.
Defined.

(** X4.  When [iend] is beyond the last frame of the shared array, the
    kernel raises [IndexError] at the first missing frame, and by then
    it has normalised every frame from [istart] to the last one: the
    shared array is left partly updated. *)
Theorem kernel_index_error flat dark cutoff istart iend s F D :
  heap s !! flat = Some F ->
  heap s !! dark = Some D ->
  shape F = shape D ->
  uniform (shape D) (SHARED_ARRAY s) = true ->
  istart <= length (SHARED_ARRAY s) < iend ->
  let run := _normalize flat dark cutoff istart iend s in
  fst run = Raise IndexError /\
  SHARED_ARRAY (snd run) =
    kernel_on istart (length (SHARED_ARRAY s)) cutoff (denom_frame F D) D
      (SHARED_ARRAY s).
Proof.
  intros HF HD Hsh Hu Hn. cbn zeta.
  set (n := length (SHARED_ARRAY s)) in *.
  rewrite _normalize_run, HF, HD.
  assert (same_shape F D = true) as -> by by apply same_shape_true.
  assert (range istart iend = range istart n ++ n :: range (S n) iend) as ->.
  { unfold range.
    replace (iend - istart) with ((n - istart) + S (iend - S n)) by lia.
    rewrite seq_app. replace (istart + (n - istart)) with n by lia. done. }
  rewrite for_each_app.
  edestruct (for_each_ok dark (length (heap s)) cutoff D (denom_frame F D) (range istart n))
    as (V & ext & Hrun & HV); cycle 5.
  - rewrite Hrun. cbn. unfold bind.
    rewrite (_normalize_frame_run _ _ _ _ _ D (denom_frame F D)); cbn.
    + assert (V = kernel_on istart n cutoff (denom_frame F D) D (SHARED_ARRAY s)) as ->.
      { apply list_eq. intros k. rewrite HV, lookup_kernel_on. cbn.
        destruct (in_range istart n k) eqn:Hr.
        - rewrite bool_decide_eq_true_2; [done|]. by apply elem_of_range, in_range_spec.
        - rewrite bool_decide_eq_false_2; [done|].
          rewrite elem_of_range, <- in_range_spec. congruence. }
      rewrite (lookup_ge_None_2 _ n) by (rewrite length_kernel_on; subst n; lia).
      done.
    + rewrite <- app_assoc. by apply lookup_app_l_Some.
    + rewrite <- app_assoc. rewrite lookup_app_r by lia.
      by rewrite Nat.sub_diag.
  - cbn. by apply lookup_app_l_Some.
  - cbn. apply lookup_snoc.
  - by apply shape_denom_frame.
  - apply NoDup_seq.
  - cbn. intros m [_ Hm]%elem_of_range.
    destruct (lookup_lt_is_Some_2 (SHARED_ARRAY s) m) as [P HP]; [subst n; lia|].
    exists P. split; [done|]. eapply uniform_lookup; eauto.
Qed.

Lemma kernel_index_error_witness :
  let s := mkState (pixels 2 5) [[[F32.of_Z 10]]; [[F32.of_Z 0]]] [] in
  let run := _normalize 0 1 None 1 3 s in
  fst run = Raise IndexError /\
  SHARED_ARRAY (snd run) =
    kernel_on 1 2 None (denom_frame [[F32.of_Z 10]] [[F32.of_Z 0]]) [[F32.of_Z 0]]
      (pixels 2 5).
Proof.
  apply (kernel_index_error 0 1 None 1 3
           (mkState (pixels 2 5) [[[F32.of_Z 10]]; [[F32.of_Z 0]]] [])
           [[F32.of_Z 10]] [[F32.of_Z 0]]);
    try reflexivity; simpl; lia.
Defined.

Lemma kernel_on_compose a b c cutoff DEN D v :
  a <= b <= c ->
  kernel_on b c cutoff DEN D (kernel_on a b cutoff DEN D v) =
    kernel_on a c cutoff DEN D v.
Proof.
  intros H. apply list_eq. intros k. rewrite !lookup_kernel_on.
  destruct (v !! k) as [P|]; [|done]. cbn. f_equal.
  destruct (in_range a b k) eqn:H1, (in_range b c k) eqn:H2,
    (in_range a c k) eqn:H3; try done;
    rewrite ?in_range_spec in *;
    repeat match goal with
    | H : in_range _ _ _ = false |- _ =>
        apply not_true_iff_false in H; rewrite in_range_spec in H
    end; lia.
Qed.

Lemma kernel_on_commute a b c cutoff DEN D v :
  a <= b <= c ->
  kernel_on a b cutoff DEN D (kernel_on b c cutoff DEN D v) =
    kernel_on a c cutoff DEN D v.
Proof.
  intros H. apply list_eq. intros k. rewrite !lookup_kernel_on.
  destruct (v !! k) as [P|]; [|done]. cbn. f_equal.
  destruct (in_range a b k) eqn:H1, (in_range b c k) eqn:H2,
    (in_range a c k) eqn:H3; try done;
    rewrite ?in_range_spec in *;
    repeat match goal with
    | H : in_range _ _ _ = false |- _ =>
        apply not_true_iff_false in H; rewrite in_range_spec in H
    end; lia.
Qed.

Lemma _normalize_twice flat dark cutoff a b a' b' s F D :
  heap s !! flat = Some F ->
  heap s !! dark = Some D ->
  shape F = shape D ->
  uniform (shape D) (SHARED_ARRAY s) = true ->
  b <= length (SHARED_ARRAY s) ->
  b' <= length (SHARED_ARRAY s) ->
  exists ext,
    (_normalize flat dark cutoff a b ;;; _normalize flat dark cutoff a' b') s =
      (Ok tt,
       mkState (kernel_on a' b' cutoff (denom_frame F D) D
                  (kernel_on a b cutoff (denom_frame F D) D (SHARED_ARRAY s)))
               (heap s ++ ext) (trace s)).
Proof.
  intros HF HD Hsh Hu Hb Hb'. unfold bind.
  destruct (_normalize_ok flat dark cutoff a b s F D HF HD Hsh Hu Hb) as [ext1 ->].
  match goal with |- context [_normalize _ _ _ _ _ ?s1] =>
    destruct (_normalize_ok flat dark cutoff a' b' s1 F D) as [ext2 ->] end; cbn.
  - by apply lookup_app_l_Some.
  - by apply lookup_app_l_Some.
  - done.
  - apply uniform_kernel_on; [by apply shape_denom_frame|done].
  - by rewrite length_kernel_on.
  - exists (ext1 ++ ext2). by rewrite <- app_assoc.
Qed.

(** X5.  Two runs of the kernel over adjacent ranges [[a, b)] and
    [[b, c)], in either order, leave the shared array as one run over
    [[a, c)] does (each run builds its own denominator, from [flat] and
    [dark] which no run changes). *)
Theorem kernel_ranges_compose flat dark cutoff a b c s F D :
  heap s !! flat = Some F ->
  heap s !! dark = Some D ->
  shape F = shape D ->
  uniform (shape D) (SHARED_ARRAY s) = true ->
  a <= b <= c ->
  c <= length (SHARED_ARRAY s) ->
  let whole := _normalize flat dark cutoff a c s in
  let fwd := (_normalize flat dark cutoff a b ;;; _normalize flat dark cutoff b c) s in
  let bwd := (_normalize flat dark cutoff b c ;;; _normalize flat dark cutoff a b) s in
  fst whole = Ok tt /\ fst fwd = Ok tt /\ fst bwd = Ok tt /\
  SHARED_ARRAY (snd fwd) = SHARED_ARRAY (snd whole) /\
  SHARED_ARRAY (snd bwd) = SHARED_ARRAY (snd whole).
Proof.
  intros HF HD Hsh Hu Habc Hc. cbn zeta.
  destruct (_normalize_ok flat dark cutoff a c s F D HF HD Hsh Hu Hc) as [e0 ->].
  destruct (_normalize_twice flat dark cutoff a b b c s F D HF HD Hsh Hu
              ltac:(lia) Hc) as [e1 ->].
  destruct (_normalize_twice flat dark cutoff b c a b s F D HF HD Hsh Hu
              Hc ltac:(lia)) as [e2 ->].
  cbn. split_and!; try done.
  - by apply kernel_on_compose.
  - by apply kernel_on_commute.
Qed.

Lemma kernel_ranges_compose_witness :
  let s := mkState (pixels 3 5) [[[F32.of_Z 10]]; [[F32.of_Z 0]]] [] in
  let whole := _normalize 0 1 None 0 3 s in
  let fwd := (_normalize 0 1 None 0 1 ;;; _normalize 0 1 None 1 3) s in
  let bwd := (_normalize 0 1 None 1 3 ;;; _normalize 0 1 None 0 1) s in
  fst whole = Ok tt /\ fst fwd = Ok tt /\ fst bwd = Ok tt /\
  SHARED_ARRAY (snd fwd) = SHARED_ARRAY (snd whole) /\
  SHARED_ARRAY (snd bwd) = SHARED_ARRAY (snd whole).
Proof.
  apply (kernel_ranges_compose 0 1 None 0 1 3
           (mkState (pixels 3 5) [[[F32.of_Z 10]]; [[F32.of_Z 0]]] [])
           [[F32.of_Z 10]] [[F32.of_Z 0]]);
    try reflexivity; simpl; lia.
Defined.

Lemma eqb_zero_is_zero x : F32.eqb x F32.zero = true -> F32.is_zero x = true.
Proof. by destruct x as [|[]| |[]]. Qed.

Lemma div_zero_num z den :
  F32.is_zero z = true -> F32.is_zero den = false -> np.isnan den = false ->
  F32.is_zero (F32.div z den) = true.
Proof. destruct z, den; done. Qed.

(** X6.  Where a projection sample equals the finite dark sample of
    its pixel and the guarded denominator is not NaN, the kernel writes a
    zero (clamped by the cutoff when one is given). *)
Theorem dark_pixel_normalises_to_zero
    flat dark cutoff istart iend s F D m r c p d den :
  heap s !! flat = Some F ->
  heap s !! dark = Some D ->
  shape F = shape D ->
  uniform (shape D) (SHARED_ARRAY s) = true ->
  iend <= length (SHARED_ARRAY s) ->
  istart <= m < iend ->
  vx (SHARED_ARRAY s) m r c = Some p ->
  px D r c = Some d ->
  F32.eqb p d = true ->
  F32.is_finite p = true ->
  px (denom_frame F D) r c = Some den ->
  np.isnan den = false ->
  let s' := snd (_normalize flat dark cutoff istart iend s) in
  exists z, F32.is_zero z = true /\
    vx (SHARED_ARRAY s') m r c = Some (clip cutoff z).
Proof.
  intros HF HD Hsh Hu Hlen Hm Hp Hd Heq Hfin Hden Hnan.
  destruct (_normalize_ok flat dark cutoff istart iend s F D HF HD Hsh Hu Hlen)
    as [ext Hrun].
  cbn zeta. rewrite Hrun. cbn [snd SHARED_ARRAY].
  exists (F32.div (F32.sub p d) den). split.
  - apply div_zero_num; [| |done].
    + apply eqb_zero_is_zero. by apply sub_eq_zero.
    + apply px_denom_frame_inv in Hden as (f & d' & _ & _ & ->).
      apply guard_nonzero.
  - unfold vx in *. rewrite lookup_kernel_on.
    destruct (SHARED_ARRAY s !! m) as [P|]; [|done]. cbn.
    assert (in_range istart iend m = true) as -> by by apply in_range_spec.
    by apply px_norm_frame.
Qed.

Lemma dark_pixel_normalises_to_zero_witness :
  let s := mkState (pixels 2 3) [[[F32.of_Z 10]]; [[F32.of_Z 3]]] [] in
  let s' := snd (_normalize 0 1 None 0 2 s) in
  exists z, F32.is_zero z = true /\
    vx (SHARED_ARRAY s') 1 0 0 = Some (clip None z).
Proof.
  apply (dark_pixel_normalises_to_zero 0 1 None 0 2
           (mkState (pixels 2 3) [[[F32.of_Z 10]]; [[F32.of_Z 3]]] [])
           [[F32.of_Z 10]] [[F32.of_Z 3]] 1 0 0
           (F32.of_Z 3) (F32.of_Z 3) (F32.of_Z 7));
    try reflexivity; simpl; lia.
Defined.

Lemma sub_nan_r p : F32.sub p F32.nan = F32.nan.
Proof. by destruct p. Qed.

Lemma div_nan_l y : F32.div F32.nan y = F32.nan.
Proof. done. Qed.

(** X7.  NaN in a reference frame spreads: at a pixel where the flat
    or the dark sample is NaN, the kernel writes NaN in every frame of
    the range, whatever the projection sample and the cutoff. *)
Theorem nan_reference_pixel flat dark cutoff istart iend s F D m r c f d x :
  heap s !! flat = Some F ->
  heap s !! dark = Some D ->
  shape F = shape D ->
  uniform (shape D) (SHARED_ARRAY s) = true ->
  iend <= length (SHARED_ARRAY s) ->
  istart <= m < iend ->
  px F r c = Some f ->
  px D r c = Some d ->
  np.isnan f = true \/ np.isnan d = true ->
  let s' := snd (_normalize flat dark cutoff istart iend s) in
  vx (SHARED_ARRAY s') m r c = Some x ->
  x = F32.nan.
Proof.
  intros HF HD Hsh Hu Hlen Hm Hf Hd Hnan.
  destruct (_normalize_ok flat dark cutoff istart iend s F D HF HD Hsh Hu Hlen)
    as [ext Hrun].
  cbn zeta. rewrite Hrun. cbn [snd SHARED_ARRAY].
  unfold vx. rewrite lookup_kernel_on.
  destruct (SHARED_ARRAY s !! m) as [P|]; [|done]. cbn.
  assert (in_range istart iend m = true) as -> by by apply in_range_spec.
  intros (p & d' & den & _ & Hd' & Hden & ->)%px_norm_frame_inv.
  apply px_denom_frame_inv in Hden as (f' & d'' & Hf' & Hd'' & ->).
  simplify_eq.
  destruct Hnan as [Hn|Hn].
  - destruct f; try done. rewrite guard_sub_nan, div_nan. apply clip_nan.
  - destruct d; try done. rewrite sub_nan_r, div_nan_l. apply clip_nan.
Qed.

Lemma nan_reference_pixel_witness :
  let s := mkState (pixels 2 5) [[[F32.nan]]; [[F32.of_Z 0]]] [] in
  let s' := snd (_normalize 0 1 (Some (F32.of_Z 1)) 0 2 s) in
  vx (SHARED_ARRAY s') 1 0 0 = Some F32.nan /\ F32.nan = F32.nan.
Proof.
  split; [reflexivity|].
  apply (nan_reference_pixel 0 1 (Some (F32.of_Z 1)) 0 2
           (mkState (pixels 2 5) [[[F32.nan]]; [[F32.of_Z 0]]] [])
           [[F32.nan]] [[F32.of_Z 0]] 1 0 0 F32.nan (F32.of_Z 0) F32.nan);
    try reflexivity; simpl; lia.
Defined.

(** X8.  On frames of the shape of [dark] the kernel returns, and it
    keeps the number of frames and the shape of every frame of the
    shared array. *)
Theorem kernel_keeps_shape flat dark cutoff istart iend s F D :
  heap s !! flat = Some F ->
  heap s !! dark = Some D ->
  shape F = shape D ->
  uniform (shape D) (SHARED_ARRAY s) = true ->
  iend <= length (SHARED_ARRAY s) ->
  let run := _normalize flat dark cutoff istart iend s in
  fst run = Ok tt /\
  length (SHARED_ARRAY (snd run)) = length (SHARED_ARRAY s) /\
  uniform (shape D) (SHARED_ARRAY (snd run)) = true.
Proof.
  intros HF HD Hsh Hu Hlen.
  destruct (_normalize_ok flat dark cutoff istart iend s F D HF HD Hsh Hu Hlen)
    as [ext Hrun].
  cbn zeta. rewrite Hrun. cbn [fst snd SHARED_ARRAY].
  split_and!; [done|apply length_kernel_on|].
  apply uniform_kernel_on; [by apply shape_denom_frame|done].
Qed.

Lemma kernel_keeps_shape_witness :
  let s := mkState (pixels 3 5) [[[F32.of_Z 10]]; [[F32.of_Z 0]]] [] in
  let run := _normalize 0 1 (Some (F32.of_Z 1)) 1 3 s in
  fst run = Ok tt /\
  length (SHARED_ARRAY (snd run)) = length (SHARED_ARRAY s) /\
  uniform (shape [[F32.of_Z 0]]) (SHARED_ARRAY (snd run)) = true.
Proof.
  apply (kernel_keeps_shape 0 1 (Some (F32.of_Z 1)) 1 3
           (mkState (pixels 3 5) [[[F32.of_Z 10]]; [[F32.of_Z 0]]] [])
           [[F32.of_Z 10]] [[F32.of_Z 0]]);
    try reflexivity; simpl; lia.
Defined.

(** ** The entry points *)

(** X9.  [normalize] does not reject an empty calibration stack: with
    no flat frame, or no dark frame, the mean is NaN at every pixel, and
    on otherwise well-formed inputs the call returns a volume of the
    length of the tomogram in which every sample is NaN. *)
Theorem normalize_empty_stack E tomo flat dark cutoff ncore nchunk sh s :
  valid_pool E ncore nchunk = true ->
  uniform sh tomo = true ->
  frame_shape flat = sh ->
  frame_shape dark = sh ->
  frames flat = [] \/ frames dark = [] ->
  exists out,
    fst (normalize E tomo flat dark cutoff ncore nchunk s) = Ok out /\
    length out = length tomo /\
    forall t r c x, vx out t r c = Some x -> x = F32.nan.
Proof.
  intros Hp Ht Hfs Hds Hempty.
  destruct (normalize_ok E tomo flat dark cutoff ncore nchunk sh Hp Ht Hfs Hds s)
    as [ext ->].
  eexists. split_and!; [done|by rewrite length_map|].
  intros t r c x. unfold vx. rewrite list_lookup_fmap.
  destruct (tomo !! t) as [P|]; [|done]. cbn.
  intros (p & d & den & _ & Hd & Hden & ->)%px_norm_frame_inv.
  apply px_denom_frame_inv in Hden as (f & d' & Hf & Hd' & ->).
  simplify_eq.
  apply px_reduced in Hf, Hd.
  destruct Hempty as [He|He]; rewrite He in *; cbn in *; subst.
  - rewrite guard_sub_nan, div_nan. apply clip_nan.
  - rewrite sub_nan_r, div_nan_l. apply clip_nan.
Qed.

Lemma normalize_empty_stack_witness :
  exists out,
    fst (normalize reversing_pool (pixels 3 5) (mkStack [1] [])
           (pixel_stack (pixels 1 0)) None None (Some 2) empty_state) = Ok out /\
    length out = length (pixels 3 5) /\
    forall t r c x, vx out t r c = Some x -> x = F32.nan.
Proof.
  apply (normalize_empty_stack reversing_pool (pixels 3 5) (mkStack [1] [])
           (pixel_stack (pixels 1 0)) None None (Some 2) [1] empty_state);
    try reflexivity. by left.
Defined.

(** X10.  With an empty flat-location index [normalize_nf] raises
    [ZeroDivisionError] at [total_flats // num_flats], whatever the
    arrays are: the median of the dark stack has been computed by then,
    and nothing has been dispatched nor written to the output volume. *)
Theorem normalize_nf_empty_flat_loc E tomo flats dark cutoff ncore nchunk s :
  normalize_nf E tomo flats dark [] cutoff ncore nchunk s =
    (Raise ZeroDivisionError,
     mkState (SHARED_ARRAY s) (heap s ++ [np.reduced Median dark])
             (trace s ++ [EvReduce Median dark])).
Proof. unfold normalize_nf, bind. by rewrite reduce_run. Qed.

Lemma slice_all {A} (l : list A) : slice l 0 (Z.of_nat (length l)) = l.
Proof.
  rewrite slice_nat by lia. rewrite Nat2Z.id. cbn.
  rewrite Nat.sub_0_r. apply firstn_all.
Qed.

Lemma stack_slice_all s : stack_slice s 0 (Z.of_nat (length (frames s))) = s.
Proof. unfold stack_slice. rewrite slice_all. by destruct s. Qed.

(** X11.  With a single flat location, whatever its value, [normalize_nf]
    takes the median of the whole flat stack (no frame is left over) and
    normalises every frame of the tomogram with it in one segment
    [[0, total_tomo)]. *)
Theorem normalize_nf_single_location
    E tomo flats dark loc cutoff ncore nchunk sh s :
  valid_pool E ncore nchunk = true ->
  uniform sh tomo = true ->
  frame_shape flats = sh ->
  frame_shape dark = sh ->
  let D := np.reduced Median dark in
  let F := np.reduced Median flats in
  let run := normalize_nf E tomo flats dark [loc] cutoff ncore nchunk s in
  fst run = Ok (map (norm_frame cutoff (denom_frame F D) D) tomo) /\
  trace (snd run) =
    trace s ++ [EvReduce Median dark; EvReduce Median flats;
                EvWrite 0 (Z.of_nat (length tomo))].
Proof.
  intros Hp Ht Hfs Hds. cbn zeta.
  unfold normalize_nf, bind. rewrite reduce_run.
  change (Z.of_nat (length [loc])) with 1%Z. unfold floordiv, lift. cbn [Z.eqb].
  rewrite Z.div_1_r. cbv beta iota.
  unfold enumerate. cbn [enumerate_from normalize_nf_loop].
  unfold bind, normalize_nf_body.
  rewrite Z.mul_0_l. change (Z.of_nat 0 + 1)%Z with 1%Z.
  rewrite Z.mul_1_l, stack_slice_all. unfold bind. rewrite reduce_run.
  cbn [seg_start Nat.eqb]. unfold seg_end, lift.
  change (Z.of_nat (length [loc]) - 1 <=? Z.of_nat 0)%Z with true.
  cbv beta iota. rewrite slice_all. cbn [heap SHARED_ARRAY trace].
  match goal with |- context [distribute_jobs E tomo (_normalize ?f ?d cutoff) ncore nchunk ?s1] =>
    destruct (distribute_jobs_normalize E tomo f d cutoff ncore nchunk s1
                (np.reduced Median flats) (np.reduced Median dark))
      as [ext ->] end; cbn [heap SHARED_ARRAY trace].
  - done.
  - apply lookup_snoc.
  - by apply lookup_app_l_Some, lookup_snoc.
  - rewrite !shape_reduced. congruence.
  - rewrite shape_reduced. congruence.
  - unfold log, slice_assign. cbv beta iota.
    rewrite length_map, length_zeros_like.
    rewrite !slice_index_nat by lia. rewrite Nat2Z.id.
    change (Z.to_nat 0) with 0.
    rewrite Nat.sub_0_r, Nat.eqb_refl. cbn [take app Nat.add].
    rewrite drop_ge by (rewrite length_zeros_like; lia).
    rewrite app_nil_r. cbn. split; [done|]. by rewrite <- !app_assoc.
Qed.

Lemma normalize_nf_single_location_witness :
  let flats := pixel_stack (pixels 1 2 ++ pixels 1 4 ++ pixels 1 16) in
  let dark := pixel_stack (pixels 1 0) in
  let run := normalize_nf reversing_pool (pixels 6 8) flats dark
               [3%Z] None None (Some 2) empty_state in
  fst run =
    Ok (map (norm_frame None
               (denom_frame (np.reduced Median flats) (np.reduced Median dark))
               (np.reduced Median dark)) (pixels 6 8)) /\
  trace (snd run) =
    trace empty_state ++ [EvReduce Median dark; EvReduce Median flats;
                          EvWrite 0 (Z.of_nat (length (pixels 6 8)))].
Proof.
  apply (normalize_nf_single_location reversing_pool (pixels 6 8)
           (pixel_stack (pixels 1 2 ++ pixels 1 4 ++ pixels 1 16))
           (pixel_stack (pixels 1 0)) 3%Z None None (Some 2) [1] empty_state);
    reflexivity.
Defined.

Lemma flat_run_frames flats (F m : nat) :
  m < F ->
  frames (flat_run flats (Z.of_nat (length (frames flats) / F)) m) =
    take (length (frames flats) / F)
         (drop (m * (length (frames flats) / F)) (frames flats)).
Proof.
  intros Hm. set (n := length (frames flats)). set (q := n / F).
  assert ((m + 1) * q <= n).
  { transitivity (F * q); [apply Nat.mul_le_mono_r; lia|].
    apply Nat.Div0.mul_div_le. }
  unfold flat_run, stack_slice. cbn [frames].
  rewrite slice_nat by (fold n; nia).
  rewrite !Z2Nat.inj_mul, Z2Nat.inj_add, !Nat2Z.id by lia.
  change (Z.to_nat 1) with 1. f_equal. lia.
Qed.

Lemma concat_runs {A} (l : list A) (q k : nat) :
  concat (map (fun m => take q (drop (m * q) l)) (seq 0 k)) = take (k * q) l.
Proof.
  induction k as [|k IH]; [done|].
  rewrite seq_S, map_app, concat_app, IH. cbn. rewrite app_nil_r.
  rewrite take_take_drop. f_equal. lia.
Qed.

(** X12.  With at least one flat location, the runs of the flat stack
    that [normalize_nf] reduces, put one after the other, are exactly
    the first [F * q] frames of the stack, in order, so that no flat
    frame is in two runs; and fewer than [F] frames are left over. *)
Theorem flat_runs_concat flats flat_loc :
  0 < length flat_loc ->
  let q := num_per_flat flats flat_loc in
  concat (map (fun m => frames (flat_run flats q m)) (seq 0 (length flat_loc))) =
    take (length flat_loc * Z.to_nat q) (frames flats) /\
  length (frames flats) - length flat_loc * Z.to_nat q < length flat_loc.
Proof.
  intros HF. cbn zeta. unfold num_per_flat.
  rewrite <- Nat2Z.inj_div, Nat2Z.id.
  set (F := length flat_loc) in *. set (n := length (frames flats)).
  split.
  - rewrite <- concat_runs. f_equal. apply map_ext_in.
    intros m [_ Hm]%in_seq. apply flat_run_frames. lia.
  - pose proof (Nat.div_mod_eq n F). pose proof (Nat.mod_upper_bound n F). lia.
Qed.

Lemma flat_runs_concat_witness :
  let flats := pixel_stack (pixels 2 2 ++ pixels 2 4 ++ pixels 1 9) in
  let q := num_per_flat flats [0; 3]%Z in
  concat (map (fun m => frames (flat_run flats q m)) (seq 0 2)) =
    take (2 * Z.to_nat q) (frames flats) /\
  length (frames flats) - 2 * Z.to_nat q < 2.
Proof.
  apply (flat_runs_concat
           (pixel_stack (pixels 2 2 ++ pixels 2 4 ++ pixels 1 9)) [0; 3]%Z).
  simpl. lia.
Defined.

(** ** The segments, further *)

Local Open Scope Z_scope.

Lemma boundary_at_last flat_loc total m :
  S m = length flat_loc -> boundary flat_loc total m = total.
Proof.
  intros Hm. unfold boundary.
  rewrite (lookup_ge_None_2 flat_loc (S m)) by lia.
  by destruct (flat_loc !! m).
Qed.

(** X13.  The index arithmetic of [normalize_nf] never reads [flat_loc]
    out of bounds, whatever the list holds (sorted or not, in range or
    not): [flat_loc[m+1]] is only evaluated when [m] is not the last
    index, so the loop goes through one segment per location, the first
    starting at 0, the last ending at [total_tomo], each next one
    starting where the previous one ends. *)
Theorem segments_any_flat_loc flat_loc total :
  let segs := segments flat_loc total in
  length segs = length flat_loc /\
  (forall m loc, flat_loc !! m = Some loc ->
     is_ok (seg_end flat_loc (Z.of_nat (length flat_loc)) total m loc) = true) /\
  fst <$> head segs = (fun _ => 0) <$> head flat_loc /\
  snd <$> last segs = (fun _ => total) <$> last flat_loc /\
  (forall m a b a' b',
     segs !! m = Some (a, b) -> segs !! S m = Some (a', b') -> a' = b).
Proof.
  cbn zeta. split_and!.
  - apply length_segments.
  - intros m loc Hm. by rewrite (seg_end_boundary _ _ _ _ Hm).
  - destruct flat_loc as [|l0 fl] eqn:E; [done|].
    rewrite head_lookup, segments_lookup by (cbn; lia). done.
  - destruct (decide (length flat_loc = 0%nat)) as [H0|H0].
    { by destruct flat_loc. }
    rewrite !last_lookup, length_segments, segments_lookup by lia.
    destruct (lookup_lt_is_Some_2 flat_loc (Nat.pred (length flat_loc)) ltac:(lia))
      as [x ->].
    cbn. f_equal. apply boundary_at_last. lia.
  - intros m a b a' b' (Hm & -> & ->)%segments_lookup_Some
      (Hm' & -> & ->)%segments_lookup_Some. done.
Qed.

Lemma boundary_next flat_loc total m loc nxt :
  flat_loc !! m = Some loc -> flat_loc !! S m = Some nxt ->
  boundary flat_loc total m = loc + (nxt - loc - 1) / 2.
Proof. intros H1 H2. unfold boundary. rewrite H1, H2. lia. Qed.

(** X14.  For a valid flat-location index, every frame of a segment but
    the first frame of the segments after the first is at least as close
    to the flat location of its segment as to any other flat location;
    and the first frame of every non-empty segment after the first is
    strictly closer to the previous flat location than to its own. *)
Theorem nearest_flat_but_segment_start flat_loc total :
  valid_flat_loc flat_loc total = true ->
  let segs := segments flat_loc total in
  (forall m a b t loc k lock,
     segs !! m = Some (a, b) -> a <= t < b -> (m = 0%nat \/ a < t) ->
     flat_loc !! m = Some loc -> flat_loc !! k = Some lock ->
     Z.abs (t - loc) <= Z.abs (t - lock)) /\
  (forall m a b prev loc,
     segs !! S m = Some (a, b) -> a < b ->
     flat_loc !! m = Some prev -> flat_loc !! S m = Some loc ->
     Z.abs (a - prev) < Z.abs (a - loc)).
Proof.
  intros Hv. cbn zeta.
  pose proof (valid_increasing _ _ Hv) as Hinc.
  split.
  - intros m a b t loc k lock (Hm & -> & ->)%segments_lookup_Some Ht Hfirst Hloc Hlock.
    destruct (lt_eq_lt_dec k m) as [[Hk| ->]|Hk].
    + (* an earlier location *)
      destruct m as [|m']; [lia|]. destruct Hfirst as [|Hfirst]; [done|].
      destruct (lookup_lt_is_Some_2 flat_loc m') as [prev Hprev].
      { apply lookup_lt_Some in Hloc. lia. }
      pose proof (strictly_increasing_succ _ _ _ _ Hinc Hprev Hloc).
      assert (lock <= prev).
      { destruct (decide (k = m')) as [->|]; [by simplify_eq|].
        pose proof (strictly_increasing_lt flat_loc k m' lock prev Hinc
                      ltac:(lia) Hlock Hprev). lia. }
      cbn [seg_lo] in Hfirst, Ht.
      rewrite (boundary_next _ _ _ _ _ Hprev Hloc) in Hfirst.
      pose proof (Z.div_mod (loc - prev - 1) 2 ltac:(lia)).
      pose proof (Z.mod_pos_bound (loc - prev - 1) 2 ltac:(lia)). lia.
    + simplify_eq. lia.
    + (* a later location *)
      destruct (lookup_lt_is_Some_2 flat_loc (S m)) as [nxt Hnxt].
      { apply lookup_lt_Some in Hlock. lia. }
      pose proof (strictly_increasing_succ _ _ _ _ Hinc Hloc Hnxt).
      assert (nxt <= lock).
      { destruct (decide (k = S m)) as [->|]; [by simplify_eq|].
        pose proof (strictly_increasing_lt flat_loc (S m) k nxt lock Hinc
                      ltac:(lia) Hnxt Hlock). lia. }
      rewrite (boundary_next _ _ _ _ _ Hloc Hnxt) in Ht.
      pose proof (Z.mul_div_le (nxt - loc - 1) 2 ltac:(lia)). lia.
  - intros m a b prev loc (Hm & -> & ->)%segments_lookup_Some Hne Hprev Hloc.
    pose proof (strictly_increasing_succ _ _ _ _ Hinc Hprev Hloc).
    cbn [seg_lo]. rewrite (boundary_next _ _ _ _ _ Hprev Hloc).
    pose proof (Z.mul_div_le (loc - prev - 1) 2 ltac:(lia)). lia.
Qed.

Lemma nearest_flat_but_segment_start_witness :
  valid_flat_loc [0; 10; 25] 30 = true /\
  Z.abs (5 - 10) <= Z.abs (5 - 0) /\
  Z.abs (4 - 0) < Z.abs (4 - 10).
Proof.
  split; [reflexivity|].
  pose proof (nearest_flat_but_segment_start [0; 10; 25] 30 eq_refl) as [H1 H2].
  split.
  - apply (H1 1%nat 4 17 5 10 0%nat 0); try reflexivity; lia.
  - apply (H2 0%nat 4 17 0 10); try reflexivity; lia.
Defined.

(** X15.  For a valid flat-location index, the last flat location is a
    frame of its own segment; another flat location is a frame of its own
    segment exactly when the next flat location is at least three frames
    later; and when the next one is one or two frames later, the frame at
    the location is in the segment of the next flat. *)
Theorem flat_location_own_segment flat_loc total :
  valid_flat_loc flat_loc total = true ->
  let segs := segments flat_loc total in
  (forall m a b loc,
     segs !! m = Some (a, b) -> flat_loc !! m = Some loc ->
     S m = length flat_loc -> a <= loc < b) /\
  (forall m a b loc nxt,
     segs !! m = Some (a, b) ->
     flat_loc !! m = Some loc -> flat_loc !! S m = Some nxt ->
     (a <= loc < b <-> 3 <= nxt - loc)) /\
  (forall m a b loc nxt,
     segs !! S m = Some (a, b) ->
     flat_loc !! m = Some loc -> flat_loc !! S m = Some nxt ->
     nxt - loc < 3 -> a <= loc < b).
Proof.
  intros Hv. cbn zeta.
  pose proof (valid_increasing _ _ Hv) as Hinc.
  assert (forall m loc, flat_loc !! m = Some loc -> seg_lo flat_loc total m <= loc)
    as Hlo.
  { intros [|m'] loc Hloc; cbn [seg_lo]; [by apply (valid_bounds _ _ Hv 0%nat)|].
    destruct (lookup_lt_is_Some_2 flat_loc m') as [prev Hprev].
    { apply lookup_lt_Some in Hloc. lia. }
    pose proof (boundary_lt_next _ _ Hv m' loc Hloc). lia. }
  split_and!.
  - intros m a b loc (Hm & -> & ->)%segments_lookup_Some Hloc Hlast.
    rewrite (boundary_at_last _ _ _ Hlast).
    pose proof (valid_bounds _ _ Hv m loc Hloc). pose proof (Hlo m loc Hloc). lia.
  - intros m a b loc nxt (Hm & -> & ->)%segments_lookup_Some Hloc Hnxt.
    pose proof (Hlo m loc Hloc).
    rewrite (boundary_next _ _ _ _ _ Hloc Hnxt).
    pose proof (strictly_increasing_succ _ _ _ _ Hinc Hloc Hnxt).
    pose proof (Z.div_mod (nxt - loc - 1) 2 ltac:(lia)).
    pose proof (Z.mod_pos_bound (nxt - loc - 1) 2 ltac:(lia)). lia.
  - intros m a b loc nxt (Hm & -> & ->)%segments_lookup_Some Hloc Hnxt Hclose.
    pose proof (strictly_increasing_succ _ _ _ _ Hinc Hloc Hnxt).
    pose proof (boundary_bounds _ _ Hv (S m) nxt Hnxt).
    cbn [seg_lo]. rewrite (boundary_next _ _ _ _ _ Hloc Hnxt).
    assert ((nxt - loc - 1) / 2 = 0) as ->; [|lia].
    apply Z.div_small. lia.
Qed.

Lemma flat_location_own_segment_witness :
  valid_flat_loc [0; 2; 25] 30 = true /\
  segments [0; 2; 25] 30 !! 1%nat = Some (0, 13) /\
  0 <= 0 < 13.
Proof.
  split; [reflexivity|]. split; [reflexivity|].
  apply (proj2 (proj2 (flat_location_own_segment [0; 2; 25] 30 eq_refl))
           0%nat 0 13 0 2); try reflexivity; lia.
Defined.

Local Close Scope Z_scope.
